(** * GenSynthNote: voice envelopes and the note looper

    A shallow embedding of [GenSynthNote.js] (one synthesizer voice: a
    sawtooth oscillator, an ADSR gain and a low-pass cutoff sweep) and of
    the looper script that spawns voices on a periodic timer.

    JavaScript numbers are modelled as real numbers: sums, products and
    quotients are exact, rounding is not modelled.  The audio clock
    [ctx.currentTime] is an explicit argument [now] of every method that
    reads it. *)

From Stdlib Require Import Reals Lra Lia List ZArith Bool String.
From Stdlib Require Import Zfloor Sorted.
Import ListNotations.

Open Scope R_scope.

(** ** Automation timelines of an AudioParam

    The platform object automated by the voice.  A parameter holds the
    value of the last rendered quantum (what the [value] getter returns)
    and the timeline of scheduled events, kept in time order, events of
    equal time in the order they were issued. *)

Module AudioParam.

Inductive kind : Type :=
| SetValue
| LinearRamp.

Record event : Type := Event {
  ev_kind  : kind;
  ev_value : R;
  ev_time  : R
}.

Record t : Type := Param {
  value  : R;
  events : list event
}.

(** [new GainNode(ctx, { gain: v })]: no automation yet. *)
Definition make (v : R) : t := Param v [].

Definition before (time : R) (e : event) : bool :=
  if Rlt_dec (ev_time e) time then true else false.

(** The events of [p] scheduled strictly earlier than [time]. *)
Definition past (p : t) (time : R) : list event :=
  filter (before time) (events p).

(** [cancelScheduledValues(cancelTime)]: every event at or after
    [cancelTime] is removed; the rendered value is not touched. *)
Definition cancelScheduledValues (p : t) (cancelTime : R) : t :=
  Param (value p) (past p cancelTime).

(** An event goes after the events that are not later than it. *)
Fixpoint insertEvent (e : event) (l : list event) : list event :=
  match l with
  | [] => [e]
  | x :: r =>
      if Rle_dec (ev_time x) (ev_time e)
      then x :: insertEvent e r
      else e :: x :: r
  end.

Definition setValueAtTime (p : t) (v time : R) : t :=
  Param (value p) (insertEvent (Event SetValue v time) (events p)).

Definition linearRampToValueAtTime (p : t) (v endTime : R) : t :=
  Param (value p) (insertEvent (Event LinearRamp v endTime) (events p)).

(** The linear segment from [(T0, V0)] to [(T1, V1)]. *)
Definition lerp (T0 V0 T1 V1 time : R) : R :=
  V0 + (V1 - V0) * ((time - T0) / (T1 - T0)).

(** The value at [time], the previous event being at [T0] with value
    [V0]: events not later than [time] are passed; the first later
    event, when it is a ramp, is under way. *)
Fixpoint valueFrom (T0 V0 : R) (l : list event) (time : R) : R :=
  match l with
  | [] => V0
  | e :: r =>
      if Rle_dec (ev_time e) time
      then valueFrom (ev_time e) (ev_value e) r time
      else match ev_kind e with
           | SetValue => V0
           | LinearRamp => lerp T0 V0 (ev_time e) (ev_value e) time
           end
  end.

(** The value of the automation curve at [time].  Before the first
    event the parameter keeps its rendered value (the voice anchors
    every ramp with a [setValueAtTime], so a ramp is never first). *)
Definition valueAt (p : t) (time : R) : R :=
  match events p with
  | [] => value p
  | e :: r =>
      if Rle_dec (ev_time e) time
      then valueFrom (ev_time e) (ev_value e) r time
      else value p
  end.

(** One rendering quantum at [time]: the getter now sees the curve. *)
Definition render (p : t) (time : R) : t :=
  Param (valueAt p time) (events p).

(** The getter agrees with the curve at [time]. *)
Definition rendered (p : t) (time : R) : Prop :=
  value p = valueAt p time.

(** The anchor idiom of [resetEnvelopes], on one parameter. *)
Definition anchor (p : t) (time : R) : t :=
  let p1 := cancelScheduledValues p time in
  setValueAtTime p1 (value p1) time.

(** Nothing but zero: the rendered value and every scheduled target. *)
Definition quiet (p : t) : Prop :=
  value p = 0 /\ Forall (fun e => ev_value e = 0) (events p).

End AudioParam.

Import AudioParam.


(** ** GenSynthNote.js: one voice *)

Module GenSynthNote.

Inductive OscillatorType : Type :=
| Sine
| Square
| Sawtooth
| Triangle.

Inductive BiquadFilterType : Type :=
| Lowpass
| Highpass
| Bandpass.

(** The oscillator, as the voice drives it: its construction options
    and the [stop(when)] requests it has received, newest first. *)
Record OscillatorNode : Type := {
  osc_frequency : R;
  osc_type      : OscillatorType;
  osc_stops     : list R
}.

Record GainNode : Type := {
  gain : AudioParam.t
}.

Record BiquadFilterNode : Type := {
  bq_type   : BiquadFilterType;
  frequency : AudioParam.t;
  Q         : R
}.

Record t : Type := {
  freq     : R;
  attack   : R;
  decay    : R;
  sustain  : R;
  release  : R;
  maxGain  : R;
  osc      : OscillatorNode;
  adsr     : GainNode;
  lpFilter : BiquadFilterNode;
  dest     : string
}.

(** [mtof(mn)]: [440 * 2 ** ((mn - 69) / 12)]. *)
Definition mtof (mn : R) : R :=
  440 * Rpower 2 ((mn - 69) / 12).

(** [constructor(context, dest, midiNote, attack, decay, sustain, release)]. *)
Definition new (dest : string) (midiNote attack decay sustain release : R) : t :=
  let freq := mtof midiNote in
  {| freq     := freq;
     attack   := attack;
     decay    := decay;
     sustain  := sustain;
     release  := release;
     maxGain  := 0.25;
     osc      := {| osc_frequency := freq; osc_type := Sawtooth; osc_stops := [] |};
     adsr     := {| gain := AudioParam.make 0 |};
     lpFilter := {| bq_type := Lowpass;
                    frequency := AudioParam.make (freq * 8);
                    Q := 10 |};
     dest     := dest |}.

Definition set_gain (v : t) (g : AudioParam.t) : t :=
  {| freq := freq v; attack := attack v; decay := decay v;
     sustain := sustain v; release := release v; maxGain := maxGain v;
     osc := osc v;
     adsr := {| gain := g |};
     lpFilter := lpFilter v;
     dest := dest v |}.

Definition set_cutoff (v : t) (f : AudioParam.t) : t :=
  {| freq := freq v; attack := attack v; decay := decay v;
     sustain := sustain v; release := release v; maxGain := maxGain v;
     osc := osc v;
     adsr := adsr v;
     lpFilter := {| bq_type := bq_type (lpFilter v);
                    frequency := f;
                    Q := Q (lpFilter v) |};
     dest := dest v |}.

(** [this.osc.stop(when)]. *)
Definition osc_stop (v : t) (when : R) : t :=
  {| freq := freq v; attack := attack v; decay := decay v;
     sustain := sustain v; release := release v; maxGain := maxGain v;
     osc := {| osc_frequency := osc_frequency (osc v);
               osc_type := osc_type (osc v);
               osc_stops := when :: osc_stops (osc v) |};
     adsr := adsr v;
     lpFilter := lpFilter v;
     dest := dest v |}.

(** [resetEnvelopes(t)], statement by statement. *)
Definition resetEnvelopes (v : t) (time : R) : t :=
  let v1 := set_gain v (cancelScheduledValues (gain (adsr v)) time) in
  let v2 := set_gain v1 (setValueAtTime (gain (adsr v1))
                           (AudioParam.value (gain (adsr v1))) time) in
  let v3 := set_cutoff v2 (cancelScheduledValues (frequency (lpFilter v2)) time) in
  set_cutoff v3 (setValueAtTime (frequency (lpFilter v3))
                   (AudioParam.value (frequency (lpFilter v3))) time).

(** [start()], with [now = this.ctx.currentTime]. *)
Definition start (v : t) (now : R) : t :=
  let v1 := resetEnvelopes v now in
  let v2 := set_gain v1 (linearRampToValueAtTime (gain (adsr v1))
                           (maxGain v1) (now + attack v1)) in
  let v3 := set_gain v2 (linearRampToValueAtTime (gain (adsr v2))
                           (maxGain v2 * sustain v2)
                           (now + attack v2 + decay v2)) in
  set_cutoff v3 (linearRampToValueAtTime (frequency (lpFilter v3))
                   (freq v3 * 2)
                   (now + attack v3 + decay v3)).

(** [stop()], with [now = this.ctx.currentTime]. *)
Definition stop (v : t) (now : R) : t :=
  let v1 := resetEnvelopes v now in
  let v2 := set_gain v1 (linearRampToValueAtTime (gain (adsr v1))
                           0 (now + release v1)) in
  osc_stop v2 (now + release v2).

(** The audio thread renders one quantum at [now]. *)
Definition render (v : t) (now : R) : t :=
  let v1 := set_gain v (AudioParam.render (gain (adsr v)) now) in
  set_cutoff v1 (AudioParam.render (frequency (lpFilter v1)) now).

(** Both getters agree with their curves at [now]. *)
Definition rendered (v : t) (now : R) : Prop :=
  AudioParam.rendered (gain (adsr v)) now /\
  AudioParam.rendered (frequency (lpFilter v)) now.

(** What can happen to a voice after its construction. *)
Inductive call : Type :=
| Start (now : R)
| Stop (now : R)
| ResetEnvelopes (time : R)
| Render (now : R).

Definition perform (v : t) (c : call) : t :=
  match c with
  | Start now => start v now
  | Stop now => stop v now
  | ResetEnvelopes time => resetEnvelopes v time
  | Render now => render v now
  end.

Definition run (v : t) (cs : list call) : t :=
  fold_left perform cs v.

Definition isStart (c : call) : bool :=
  match c with
  | Start _ => true
  | _ => false
  end.

(** No [start()] among the calls. *)
Definition untriggered (cs : list call) : bool :=
  forallb (fun c => negb (isStart c)) cs.

(** The scalar fields the constructor assigns. *)
Definition settings (v : t) : R * R * R * R * R * R :=
  (freq v, attack v, decay v, sustain v, release v, maxGain v).

(** The amplitude and the cutoff of the voice at [time]. *)
Definition amplitudeAt (v : t) (time : R) : R :=
  valueAt (gain (adsr v)) time.

Definition cutoffAt (v : t) (time : R) : R :=
  valueAt (frequency (lpFilter v)) time.

End GenSynthNote.

(** ** The looper script

    The module-level variables that change at run time, the timers of
    the page and the voices created so far.  [setInterval] and
    [setTimeout] hand out positive handles from one counter.  A voice
    is a heap object: the timeout that will stop it holds its index in
    [notes]. *)

Module Looper.

Definition loopTime : R := 125.

Definition delayTimeNum : R := loopTime / 1000 * 2.

Definition midiNotes : list Z :=
  [36; 48; 55; 58; 60; 62; 63; 65; 67; 69; 70; 72; 75; 79; 82]%Z.

Record state : Type := {
  attack     : R;
  decay      : R;
  sustain    : R;
  release    : R;
  looper     : option nat;
  intervals  : list nat;
  timeouts   : list (nat * nat);
  nextHandle : nat;
  resumed    : bool;
  notes      : list GenSynthNote.t
}.

Definition init : state :=
  {| attack := 0.01; decay := 0.1; sustain := 0.25; release := 0.9;
     looper := None; intervals := []; timeouts := [];
     nextHandle := 1; resumed := false; notes := [] |}.

(** [a[i]] for an integer [i]: [undefined] out of range. *)
Definition index {A : Type} (a : list A) (i : Z) : option A :=
  if (i <? 0)%Z then None else nth_error a (Z.to_nat i).

(** [Math.floor(r * a.length)], [r] being the draw of [Math.random()]. *)
Definition randomIndex {A : Type} (a : list A) (r : R) : Z :=
  Zfloor (r * INR (List.length a)).

(** [a[Math.floor(Math.random() * a.length)]]. *)
Definition pick {A : Type} (a : list A) (r : R) : option A :=
  index a (randomIndex a r).

(** [playANote], the draw being [r] and the audio clock at [now].  The
    destination is the node the script calls [delay].  Without a pitch
    no voice is made. *)
Definition playANote (s : state) (r now : R) : option state :=
  match pick midiNotes r with
  | None => None
  | Some midiPitch =>
      let note := GenSynthNote.new "delay"%string (IZR midiPitch)
                    (attack s) (decay s) (sustain s) (release s) in
      let note' := GenSynthNote.start note now in
      Some {| attack := attack s; decay := decay s;
              sustain := sustain s; release := release s;
              looper := looper s; intervals := intervals s;
              timeouts := timeouts s ++ [(nextHandle s, List.length (notes s))];
              nextHandle := S (nextHandle s);
              resumed := resumed s;
              notes := notes s ++ [note'] |}
  end.

(** A handle is truthy when it is a number other than 0. *)
Definition truthy (h : option nat) : bool :=
  match h with
  | Some (S _) => true
  | _ => false
  end.

(** [clearInterval(h)]; [clearInterval(null)] clears nothing. *)
Definition clearInterval (l : list nat) (h : option nat) : list nat :=
  match h with
  | Some n => remove Nat.eq_dec n l
  | None => l
  end.

(** The click handler of [#start]. *)
Definition clickStart (s : state) : state :=
  let live := if truthy (looper s)
              then clearInterval (intervals s) (looper s)
              else intervals s in
  {| attack := attack s; decay := decay s;
     sustain := sustain s; release := release s;
     looper := Some (nextHandle s);
     intervals := live ++ [nextHandle s];
     timeouts := timeouts s;
     nextHandle := S (nextHandle s);
     resumed := true;
     notes := notes s |}.

(** The click handler of [#stop]. *)
Definition clickStop (s : state) : state :=
  {| attack := attack s; decay := decay s;
     sustain := sustain s; release := release s;
     looper := None;
     intervals := clearInterval (intervals s) (looper s);
     timeouts := timeouts s;
     nextHandle := nextHandle s;
     resumed := resumed s;
     notes := notes s |}.

Definition setEnvelope (s : state) (a d su r : R) : state :=
  {| attack := a; decay := d; sustain := su; release := r;
     looper := looper s; intervals := intervals s;
     timeouts := timeouts s; nextHandle := nextHandle s;
     resumed := resumed s; notes := notes s |}.

Definition setNotes (s : state) (ns : list GenSynthNote.t) : state :=
  {| attack := attack s; decay := decay s;
     sustain := sustain s; release := release s;
     looper := looper s; intervals := intervals s;
     timeouts := timeouts s; nextHandle := nextHandle s;
     resumed := resumed s; notes := ns |}.

Definition setTimeouts (s : state) (ts : list (nat * nat)) : state :=
  {| attack := attack s; decay := decay s;
     sustain := sustain s; release := release s;
     looper := looper s; intervals := intervals s;
     timeouts := ts; nextHandle := nextHandle s;
     resumed := resumed s; notes := notes s |}.

(** The [input] handlers of the four envelope sliders. *)
Definition attTimeInput (s : state) (x : R) : state :=
  setEnvelope s x (decay s) (sustain s) (release s).

Definition decTimeInput (s : state) (x : R) : state :=
  setEnvelope s (attack s) x (sustain s) (release s).

Definition susAmpInput (s : state) (x : R) : state :=
  setEnvelope s (attack s) (decay s) x (release s).

Definition relTimeInput (s : state) (x : R) : state :=
  setEnvelope s (attack s) (decay s) (sustain s) x.

(** Replace the voice at index [i]. *)
Fixpoint update (ns : list GenSynthNote.t) (i : nat) (f : GenSynthNote.t -> GenSynthNote.t)
  : list GenSynthNote.t :=
  match ns, i with
  | [], _ => []
  | n :: r, O => f n :: r
  | n :: r, S j => n :: update r j f
  end.

Fixpoint findTimeout (ts : list (nat * nat)) (h : nat) : option nat :=
  match ts with
  | [] => None
  | (h', i) :: r => if Nat.eqb h' h then Some i else findTimeout r h
  end.

(** The one-shot callback [() => note.stop()] of handle [h] runs, the
    audio clock at [now]. *)
Definition timeoutFires (s : state) (h : nat) (now : R) : state :=
  match findTimeout (timeouts s) h with
  | None => s
  | Some i =>
      setTimeouts
        (setNotes s (update (notes s) i (fun n => GenSynthNote.stop n now)))
        (filter (fun t => negb (Nat.eqb (fst t) h)) (timeouts s))
  end.

(** The interval of handle [h] fires, if it is still set; a callback
    that fails leaves the page as it was. *)
Definition intervalFires (s : state) (h : nat) (r now : R) : state :=
  if existsb (Nat.eqb h) (intervals s)
  then match playANote s r now with
       | Some s' => s'
       | None => s
       end
  else s.

(** What the page reacts to. *)
Inductive event : Type :=
| ClickStart
| ClickStop
| IntervalFires (h : nat) (r now : R)
| TimeoutFires (h : nat) (now : R)
| AttTimeInput (x : R)
| DecTimeInput (x : R)
| SusAmpInput (x : R)
| RelTimeInput (x : R)
| Quantum (now : R).

Definition step (s : state) (e : event) : state :=
  match e with
  | ClickStart => clickStart s
  | ClickStop => clickStop s
  | IntervalFires h r now => intervalFires s h r now
  | TimeoutFires h now => timeoutFires s h now
  | AttTimeInput x => attTimeInput s x
  | DecTimeInput x => decTimeInput s x
  | SusAmpInput x => susAmpInput s x
  | RelTimeInput x => relTimeInput s x
  | Quantum now => setNotes s (map (fun n => GenSynthNote.render n now) (notes s))
  end.

Definition steps (s : state) (es : list event) : state :=
  fold_left step es s.

(** The states the page can be in. *)
Inductive reachable : state -> Prop :=
| reachable_init : reachable init
| reachable_step s e : reachable s -> reachable (step s e).

(** The events that come from the envelope sliders. *)
Definition isSlider (e : event) : bool :=
  match e with
  | AttTimeInput _ | DecTimeInput _ | SusAmpInput _ | RelTimeInput _ => true
  | _ => false
  end.

(** At most one interval is set, the one [looper] holds; handles are
    positive and below the counter. *)
Definition tidy (s : state) : Prop :=
  intervals s = match looper s with
                | Some h => [h]
                | None => []
                end
  /\ (0 < nextHandle s)%nat
  /\ (forall h, looper s = Some h -> (0 < h < nextHandle s)%nat).

End Looper.

(** ** Predicates and counters for the invariants of the voice and of
    the page *)

Module Invariant.

(** The timeline is in time order. *)
Definition ordered (p : AudioParam.t) : Prop :=
  StronglySorted (fun a b => ev_time a <= ev_time b) (events p).

(** The rendered value and every scheduled target lie in [[lo, hi]]. *)
Definition within (lo hi : R) (p : AudioParam.t) : Prop :=
  lo <= AudioParam.value p <= hi
  /\ Forall (fun e => lo <= ev_value e <= hi) (events p).



Definition isRender (c : GenSynthNote.call) : bool :=
  match c with
  | GenSynthNote.Render _ => true
  | _ => false
  end.

(** Nothing but rendering among [cs]. *)
Definition rendersOnly (cs : list GenSynthNote.call) : bool :=
  forallb isRender cs.




End Invariant.

(** ** The feedback slider

    The [input] handler of [#fb] ramps the gain of the feedback node
    the script calls [delFb]; its gain parameter is the argument. *)

Module Feedback.

Definition fbInput (delFbGain : AudioParam.t) (x now : R) : AudioParam.t :=
  linearRampToValueAtTime delFbGain x (now + 0.01).

End Feedback.

(** ** The methods with the exceptions of the platform

    Every automation method raises [RangeError] for a negative time,
    and [stop(when)] of an oscillator raises [InvalidStateError] unless
    [start()] has been called on it, and [RangeError] for a negative
    [when].  A voice is paired here with what its record does not
    hold, whether its oscillator has been started.  An exception ends
    the method and leaves the voice as the statements before it have
    made it. *)

Module Playback.

Inductive exception : Type :=
| RangeError
| InvalidStateError.

Record voice : Type := {
  note          : GenSynthNote.t;
  sourceStarted : bool
}.

Inductive outcome : Type :=
| Returned (v : voice)
| Raised (e : exception) (v : voice).

(** The voice a call leaves behind, returned or not. *)
Definition after (o : outcome) : voice :=
  match o with
  | Returned v => v
  | Raised _ v => v
  end.

Definition withNote (v : voice) (n : GenSynthNote.t) : voice :=
  {| note := n; sourceStarted := sourceStarted v |}.

(** The constructor makes the oscillator and does not start it. *)
Definition new (dest : string) (midiNote attack decay sustain release : R) : voice :=
  {| note := GenSynthNote.new dest midiNote attack decay sustain release;
     sourceStarted := false |}.

(** [osc.start()] of the platform, which may be called once.  No
    method of the class calls it. *)
Definition oscStart (v : voice) : outcome :=
  if sourceStarted v
  then Raised InvalidStateError v
  else Returned {| note := note v; sourceStarted := true |}.

(** [resetEnvelopes(t)]: its first statement raises for [t < 0]. *)
Definition resetEnvelopes (v : voice) (time : R) : outcome :=
  if Rlt_dec time 0
  then Raised RangeError v
  else Returned (withNote v (GenSynthNote.resetEnvelopes (note v) time)).

(** [start()]: after the anchor, each ramp raises for a negative end
    time; the cutoff ramp ends with the decay ramp. *)
Definition start (v : voice) (now : R) : outcome :=
  match resetEnvelopes v now with
  | Raised e v' => Raised e v'
  | Returned v0 =>
      let n1 := note v0 in
      if Rlt_dec (now + GenSynthNote.attack n1) 0
      then Raised RangeError v0
      else
        let n2 := GenSynthNote.set_gain n1
                    (linearRampToValueAtTime
                       (GenSynthNote.gain (GenSynthNote.adsr n1))
                       (GenSynthNote.maxGain n1)
                       (now + GenSynthNote.attack n1)) in
        if Rlt_dec (now + GenSynthNote.attack n2 + GenSynthNote.decay n2) 0
        then Raised RangeError (withNote v n2)
        else
          let n3 := GenSynthNote.set_gain n2
                      (linearRampToValueAtTime
                         (GenSynthNote.gain (GenSynthNote.adsr n2))
                         (GenSynthNote.maxGain n2 * GenSynthNote.sustain n2)
                         (now + GenSynthNote.attack n2 + GenSynthNote.decay n2)) in
          Returned
            (withNote v
               (GenSynthNote.set_cutoff n3
                  (linearRampToValueAtTime
                     (GenSynthNote.frequency (GenSynthNote.lpFilter n3))
                     (GenSynthNote.freq n3 * 2)
                     (now + GenSynthNote.attack n3 + GenSynthNote.decay n3))))
  end.

(** [stop()]: after the anchor, the ramp raises for a negative end
    time; then [this.osc.stop(now + release)] raises unless the
    oscillator has been started. *)
Definition stop (v : voice) (now : R) : outcome :=
  match resetEnvelopes v now with
  | Raised e v' => Raised e v'
  | Returned v0 =>
      let n1 := note v0 in
      if Rlt_dec (now + GenSynthNote.release n1) 0
      then Raised RangeError v0
      else
        let n2 := GenSynthNote.set_gain n1
                    (linearRampToValueAtTime
                       (GenSynthNote.gain (GenSynthNote.adsr n1))
                       0 (now + GenSynthNote.release n1)) in
        if sourceStarted v
        then Returned
               (withNote v
                  (GenSynthNote.osc_stop n2 (now + GenSynthNote.release n2)))
        else Raised InvalidStateError (withNote v n2)
  end.

Definition perform (v : voice) (c : GenSynthNote.call) : outcome :=
  match c with
  | GenSynthNote.Start now => start v now
  | GenSynthNote.Stop now => stop v now
  | GenSynthNote.ResetEnvelopes time => resetEnvelopes v time
  | GenSynthNote.Render now =>
      Returned (withNote v (GenSynthNote.render (note v) now))
  end.

(** Calls one after the other, each from its own task: an exception
    ends its call and the next call finds the voice as it was left. *)
Definition run (v : voice) (cs : list GenSynthNote.call) : voice :=
  fold_left (fun v c => after (perform v c)) cs v.

End Playback.

(** ** Facts about timelines *)

Section Timeline.

Lemma past_before (p : AudioParam.t) (time : R) :
  Forall (fun e => ev_time e < time) (past p time).
Proof.
  unfold past. apply Forall_forall. intros e He.
  apply filter_In in He. destruct He as [_ He].
  unfold before in He. destruct (Rlt_dec (ev_time e) time); [assumption | discriminate].
Qed.

Lemma insertEvent_last (e : event) (l : list event) :
  Forall (fun x => ev_time x <= ev_time e) l ->
  insertEvent e l = l ++ [e].
Proof.
  induction 1 as [| x r Hx _ IH]; simpl.
  - reflexivity.
  - destruct (Rle_dec (ev_time x) (ev_time e)) as [_ | Hn].
    + now rewrite IH.
    + contradiction.
Qed.

Lemma valueFrom_skip (l r : list event) (time : R) :
  Forall (fun x => ev_time x <= time) l ->
  forall T0 V0 e, ev_time e <= time ->
  valueFrom T0 V0 (l ++ e :: r) time = valueFrom (ev_time e) (ev_value e) r time.
Proof.
  induction 1 as [| x l' Hx _ IH]; intros T0 V0 e He; simpl.
  - destruct (Rle_dec (ev_time e) time); [reflexivity | contradiction].
  - destruct (Rle_dec (ev_time x) time); [now apply IH | contradiction].
Qed.

Lemma valueAt_skip (p : AudioParam.t) (l r : list event) (e : event) (time : R) :
  events p = l ++ e :: r ->
  Forall (fun x => ev_time x <= time) l ->
  ev_time e <= time ->
  valueAt p time = valueFrom (ev_time e) (ev_value e) r time.
Proof.
  intros Hp Hl He. unfold valueAt. rewrite Hp.
  destruct Hl as [| x l' Hx Hl']; simpl.
  - destruct (Rle_dec (ev_time e) time); [reflexivity | contradiction].
  - destruct (Rle_dec (ev_time x) time); [now apply valueFrom_skip | contradiction].
Qed.

Lemma Forall_time_le (l : list event) (a b : R) :
  a <= b ->
  Forall (fun e => ev_time e < a) l ->
  Forall (fun e => ev_time e <= b) l.
Proof.
  intros Hab H. eapply Forall_impl; [| exact H]. simpl. intros e He. lra.
Qed.

Lemma anchor_events (p : AudioParam.t) (time : R) :
  events (anchor p time) = past p time ++ [Event SetValue (value p) time].
Proof.
  unfold anchor, setValueAtTime, cancelScheduledValues. simpl.
  apply insertEvent_last. simpl.
  apply Forall_time_le with (a := time); [lra | apply past_before].
Qed.

Lemma anchor_value (p : AudioParam.t) (time : R) :
  value (anchor p time) = value p.
Proof. reflexivity. Qed.

(** A ramp issued on an anchored timeline, ending no earlier than the
    anchor, is appended. *)
Lemma ramp_append (p : AudioParam.t) (pre suf : list event) (time v endTime : R) :
  events p = pre ++ suf ->
  Forall (fun e => ev_time e < time) pre ->
  Forall (fun e => ev_time e <= endTime) suf ->
  time <= endTime ->
  events (linearRampToValueAtTime p v endTime)
  = pre ++ suf ++ [Event LinearRamp v endTime].
Proof.
  intros Hp Hpre Hsuf Hle. unfold linearRampToValueAtTime. simpl.
  rewrite Hp, app_assoc. apply insertEvent_last. simpl.
  apply Forall_app. split; [| exact Hsuf].
  apply Forall_time_le with (a := time); assumption.
Qed.

End Timeline.

(** ** What the methods of a voice leave on its two timelines *)

Ltac times_le :=
  repeat (apply Forall_cons; [simpl; lra |]); apply Forall_nil.

Section VoiceTimelines.

Import GenSynthNote.

Variable v : GenSynthNote.t.
Variable now : R.

Let g := gain (adsr v).
Let f := frequency (lpFilter v).

Lemma reset_gain :
  gain (adsr (resetEnvelopes v now)) = anchor g now.
Proof. reflexivity. Qed.

Lemma reset_cutoff :
  frequency (lpFilter (resetEnvelopes v now)) = anchor f now.
Proof. reflexivity. Qed.

Lemma start_gain :
  gain (adsr (start v now))
  = linearRampToValueAtTime
      (linearRampToValueAtTime (anchor g now) (maxGain v) (now + attack v))
      (maxGain v * sustain v) (now + attack v + decay v).
Proof. reflexivity. Qed.

Lemma start_cutoff :
  frequency (lpFilter (start v now))
  = linearRampToValueAtTime (anchor f now) (freq v * 2) (now + attack v + decay v).
Proof. reflexivity. Qed.

Lemma stop_gain :
  gain (adsr (stop v now))
  = linearRampToValueAtTime (anchor g now) 0 (now + release v).
Proof. reflexivity. Qed.

Lemma stop_cutoff :
  frequency (lpFilter (stop v now)) = anchor f now.
Proof. reflexivity. Qed.

Lemma stop_osc :
  osc_stops (osc (stop v now)) = (now + release v) :: osc_stops (osc v).
Proof. reflexivity. Qed.

Lemma start_gain_events :
  0 <= attack v -> 0 <= decay v ->
  events (gain (adsr (start v now)))
  = past g now ++
    [ Event SetValue (AudioParam.value g) now;
      Event LinearRamp (maxGain v) (now + attack v);
      Event LinearRamp (maxGain v * sustain v) (now + attack v + decay v) ].
Proof.
  intros Ha Hd. rewrite start_gain.
  apply ramp_append with (time := now)
    (suf := [Event SetValue (AudioParam.value g) now;
             Event LinearRamp (maxGain v) (now + attack v)]).
  - apply ramp_append with (time := now)
      (suf := [Event SetValue (AudioParam.value g) now]).
    + apply anchor_events.
    + apply past_before.
    + times_le.
    + lra.
  - apply past_before.
  - times_le.
  - lra.
Qed.

Lemma start_cutoff_events :
  0 <= attack v -> 0 <= decay v ->
  events (frequency (lpFilter (start v now)))
  = past f now ++
    [ Event SetValue (AudioParam.value f) now;
      Event LinearRamp (freq v * 2) (now + attack v + decay v) ].
Proof.
  intros Ha Hd. rewrite start_cutoff.
  apply ramp_append with (time := now)
    (suf := [Event SetValue (AudioParam.value f) now]).
  - apply anchor_events.
  - apply past_before.
  - times_le.
  - lra.
Qed.

Lemma stop_gain_events :
  0 <= release v ->
  events (gain (adsr (stop v now)))
  = past g now ++
    [ Event SetValue (AudioParam.value g) now;
      Event LinearRamp 0 (now + release v) ].
Proof.
  intros Hr. rewrite stop_gain.
  apply ramp_append with (time := now)
    (suf := [Event SetValue (AudioParam.value g) now]).
  - apply anchor_events.
  - apply past_before.
  - times_le.
  - lra.
Qed.

End VoiceTimelines.

(** ** The curve after an anchor *)

Ltac rle_cases :=
  repeat match goal with
         | |- context [Rle_dec ?a ?b] => destruct (Rle_dec a b)
         | |- context [Rlt_dec ?a ?b] => destruct (Rlt_dec a b)
         end.

Lemma valueAt_anchored (p : AudioParam.t) (pre rest : list event) (cur now time : R) :
  events p = pre ++ Event SetValue cur now :: rest ->
  Forall (fun e => ev_time e < now) pre ->
  now <= time ->
  valueAt p time = valueFrom now cur rest time.
Proof.
  intros Hp Hpre Hle.
  rewrite (valueAt_skip p pre rest (Event SetValue cur now) time Hp).
  - reflexivity.
  - apply Forall_time_le with (a := now); assumption.
  - simpl. lra.
Qed.

Lemma valueAt_anchor (p : AudioParam.t) (time : R) :
  valueAt (anchor p time) time = AudioParam.value p.
Proof.
  rewrite (valueAt_anchored (anchor p time) (past p time) [] (AudioParam.value p) time time).
  - reflexivity.
  - apply anchor_events.
  - apply past_before.
  - lra.
Qed.

Lemma lerp_start (T0 V0 T1 V1 : R) :
  lerp T0 V0 T1 V1 T0 = V0.
Proof.
  unfold lerp. replace (T0 - T0) with 0 by lra.
  unfold Rdiv. rewrite Rmult_0_l, Rmult_0_r. lra.
Qed.

Lemma render_value (p : AudioParam.t) (time : R) :
  valueAt (AudioParam.render p time) time = valueAt p time.
Proof.
  unfold AudioParam.render. unfold valueAt. simpl.
  destruct (events p) as [| e r]; [reflexivity |].
  destruct (Rle_dec (ev_time e) time); reflexivity.
Qed.

Lemma valueAt_render_later (p : AudioParam.t) (t time : R) (e : event) (l : list event) :
  events p = e :: l -> ev_time e <= time ->
  valueAt (AudioParam.render p t) time = valueAt p time.
Proof.
  intros Hp He. unfold AudioParam.render. unfold valueAt. simpl. rewrite Hp.
  destruct (Rle_dec (ev_time e) time); [reflexivity | contradiction].
Qed.

Lemma render_rendered (p : AudioParam.t) (time : R) :
  AudioParam.rendered (AudioParam.render p time) time.
Proof.
  unfold AudioParam.rendered. rewrite render_value. reflexivity.
Qed.

Lemma render_gain (v : GenSynthNote.t) (time : R) :
  GenSynthNote.gain (GenSynthNote.adsr (GenSynthNote.render v time))
  = AudioParam.render (GenSynthNote.gain (GenSynthNote.adsr v)) time.
Proof. reflexivity. Qed.

(** ** Trigger: the amplitude legs and the cutoff sweep *)

Section Trigger.

Import GenSynthNote.

(** C1, as the code has it.  After [start()] at [now] with
    [attack, decay >= 0], the gain timeline from [now] on is the anchor
    at the rendered value followed by exactly two linear ramps, to
    [maxGain] at [now + attack] and to [maxGain * sustain] at
    [now + attack + decay]; each leg is the straight line from the end
    of the previous one; the amplitude is [maxGain * sustain] at
    [now + attack + decay]; at [now + attack] it is [maxGain] when
    [decay > 0], and [maxGain * sustain] when [decay = 0]. *)
Theorem start_amplitude_legs (v : GenSynthNote.t) (now : R) :
  0 <= attack v -> 0 <= decay v ->
  let v' := start v now in
  let cur := AudioParam.value (gain (adsr v)) in
  events (gain (adsr v'))
  = past (gain (adsr v)) now ++
    [ Event SetValue cur now;
      Event LinearRamp (maxGain v) (now + attack v);
      Event LinearRamp (maxGain v * sustain v) (now + attack v + decay v) ]
  /\ (0 < decay v -> amplitudeAt v' (now + attack v) = maxGain v)
  /\ (decay v = 0 -> amplitudeAt v' (now + attack v) = maxGain v * sustain v)
  /\ amplitudeAt v' (now + attack v + decay v) = maxGain v * sustain v
  /\ (forall time, now <= time < now + attack v ->
        amplitudeAt v' time = lerp now cur (now + attack v) (maxGain v) time)
  /\ (forall time, now + attack v <= time < now + attack v + decay v ->
        amplitudeAt v' time
        = lerp (now + attack v) (maxGain v)
               (now + attack v + decay v) (maxGain v * sustain v) time).
Proof.
  intros Ha Hd v' cur.
  pose proof (start_gain_events v now Ha Hd) as Hev.
  assert (Hval : forall time, now <= time ->
            amplitudeAt v' time
            = valueFrom now cur
                [ Event LinearRamp (maxGain v) (now + attack v);
                  Event LinearRamp (maxGain v * sustain v) (now + attack v + decay v) ]
                time).
  { intros time Ht. unfold amplitudeAt.
    apply valueAt_anchored with (pre := past (gain (adsr v)) now);
      [exact Hev | apply past_before | exact Ht]. }
  split; [exact Hev |].
  repeat split.
  - intros Hpos. rewrite Hval by lra. simpl. rle_cases; solve [lra | apply lerp_start].
  - intros Hz. rewrite Hval by lra. simpl. rle_cases; solve [lra | reflexivity].
  - rewrite Hval by lra. simpl. rle_cases; solve [lra | reflexivity].
  - intros time [H1 H2]. rewrite Hval by lra. simpl. rle_cases; solve [lra | reflexivity].
  - intros time [H1 H2]. rewrite Hval by lra. simpl. rle_cases; solve [lra | reflexivity].
Qed.

(** C6.  After [start()] at [now] with [attack, decay >= 0], the cutoff
    timeline from [now] on is the anchor at the rendered cutoff
    followed by exactly one linear ramp, to [2 * freq] at
    [now + attack + decay], the end of the amplitude decay leg; the
    cutoff follows that line, is [2 * freq] from then on, and [stop()]
    adds nothing to the cutoff but its anchor. *)
Theorem start_cutoff_sweep (v : GenSynthNote.t) (now : R) :
  0 <= attack v -> 0 <= decay v ->
  let v' := start v now in
  let cur := AudioParam.value (frequency (lpFilter v)) in
  let done := now + attack v + decay v in
  events (frequency (lpFilter v'))
  = past (frequency (lpFilter v)) now ++
    [ Event SetValue cur now; Event LinearRamp (2 * freq v) done ]
  /\ (forall time, now <= time < done ->
        cutoffAt v' time = lerp now cur done (2 * freq v) time)
  /\ (forall time, done <= time -> cutoffAt v' time = 2 * freq v)
  /\ (forall later,
        events (frequency (lpFilter (stop v' later)))
        = past (frequency (lpFilter v')) later ++
          [ Event SetValue cur later ]).
Proof.
  intros Ha Hd v' cur done.
  pose proof (start_cutoff_events v now Ha Hd) as Hev.
  replace (freq v * 2) with (2 * freq v) in Hev by lra.
  assert (Hval : forall time, now <= time ->
            cutoffAt v' time
            = valueFrom now cur [ Event LinearRamp (2 * freq v) done ] time).
  { intros time Ht. unfold cutoffAt.
    apply valueAt_anchored with (pre := past (frequency (lpFilter v)) now);
      [exact Hev | apply past_before | exact Ht]. }
  split; [exact Hev |].
  repeat split.
  - intros time [H1 H2]. rewrite Hval by lra. simpl. rle_cases; solve [lra | reflexivity].
  - intros time H1. rewrite Hval by (unfold done in H1; lra).
    simpl. rle_cases; solve [lra | reflexivity].
  - intros later. rewrite stop_cutoff. apply anchor_events.
Qed.

End Trigger.

(** ** The fields no method assigns *)

Section Snapshot.

Import GenSynthNote.

Lemma perform_settings (v : GenSynthNote.t) (c : call) :
  settings (perform v c) = settings v.
Proof. destruct c; reflexivity. Qed.

Lemma run_settings (cs : list call) :
  forall v, settings (run v cs) = settings v.
Proof.
  unfold run. induction cs as [| c cs IH]; intros v; simpl.
  - reflexivity.
  - rewrite IH. apply perform_settings.
Qed.

Lemma run_release (v : GenSynthNote.t) (cs : list call) :
  release (run v cs) = release v.
Proof.
  pose proof (run_settings cs v) as H. unfold settings in H.
  now inversion H.
Qed.

Lemma run_freq (v : GenSynthNote.t) (cs : list call) :
  freq (run v cs) = freq v.
Proof.
  pose proof (run_settings cs v) as H. unfold settings in H.
  now inversion H.
Qed.

Lemma run_maxGain (v : GenSynthNote.t) (cs : list call) :
  maxGain (run v cs) = maxGain v.
Proof.
  pose proof (run_settings cs v) as H. unfold settings in H.
  now inversion H.
Qed.

End Snapshot.

(** ** Release *)

Section Release.

Import GenSynthNote.

(** What [stop()] issues.  Whatever calls a voice [v0] with
    [release >= 0] has been through, [stop()] at [now] leaves on the
    gain timeline, from [now] on, the anchor at the getter value
    followed by exactly one linear ramp, to 0 at [now + release]; the
    amplitude follows that line and is 0 from [now + release] on; the
    request to the oscillator is for [now + release]. *)
Theorem stop_release_ramp (v0 : GenSynthNote.t) (cs : list call) (now : R) :
  0 <= release v0 ->
  let v := run v0 cs in
  let v' := stop v now in
  let cur := AudioParam.value (gain (adsr v)) in
  events (gain (adsr v'))
  = past (gain (adsr v)) now ++
    [ Event SetValue cur now; Event LinearRamp 0 (now + release v0) ]
  /\ (forall time, now <= time < now + release v0 ->
        amplitudeAt v' time = lerp now cur (now + release v0) 0 time)
  /\ (forall time, now + release v0 <= time -> amplitudeAt v' time = 0)
  /\ osc_stops (osc v') = (now + release v0) :: osc_stops (osc v).
Proof.
  intros Hr v v' cur.
  assert (Hrel : release v = release v0) by apply run_release.
  assert (Hr' : 0 <= release v) by lra.
  pose proof (stop_gain_events v now Hr') as Hev.
  fold v' in Hev. rewrite Hrel in Hev.
  assert (Hval : forall time, now <= time ->
            amplitudeAt v' time
            = valueFrom now cur [ Event LinearRamp 0 (now + release v0) ] time).
  { intros time Ht. unfold amplitudeAt.
    apply valueAt_anchored with (pre := past (gain (adsr v)) now);
      [exact Hev | apply past_before | exact Ht]. }
  split; [exact Hev |].
  repeat split.
  - intros time [H1 H2]. rewrite Hval by lra.
    simpl. rle_cases; solve [lra | reflexivity].
  - intros time H1. rewrite Hval by lra.
    simpl. rle_cases; solve [lra | reflexivity].
  - unfold v'. rewrite stop_osc, Hrel. reflexivity.
Qed.

Lemma stop_amplitude_at_call (v : GenSynthNote.t) (time : R) :
  0 <= release v ->
  amplitudeAt (stop v time) time
  = valueFrom time (AudioParam.value (gain (adsr v)))
      [ Event LinearRamp 0 (time + release v) ] time.
Proof.
  intros Hr. unfold amplitudeAt.
  exact (valueAt_anchored _ _ _ _ _ time
           (stop_gain_events v time Hr) (past_before _ _) (Rle_refl time)).
Qed.

Lemma stop_positive_release (v : GenSynthNote.t) (time : R) :
  0 < release v ->
  amplitudeAt (stop v time) time = AudioParam.value (gain (adsr v)).
Proof.
  intros Hr. rewrite stop_amplitude_at_call by lra.
  simpl. rle_cases; [lra | apply lerp_start].
Qed.

Lemma stop_zero_release (v : GenSynthNote.t) (time : R) :
  release v = 0 ->
  amplitudeAt (stop v time) time = 0.
Proof.
  intros Hz. rewrite stop_amplitude_at_call by lra.
  simpl. rle_cases; [reflexivity | lra].
Qed.

(** C3, as the code has it.  [resetEnvelopes(time)] pins the amplitude
    and the cutoff to the values their getters return at the call: it
    leaves both getters as they were and both curves at those values
    from [time] on, so it keeps the value a curve had at [time] exactly
    when the getter agreed with the curve there.  After [start()] and
    [stop()] at the same instant the amplitude at that instant is the
    getter value when [release > 0], and 0 when [release = 0]. *)
Theorem resetEnvelopes_pins_getter_values (v : GenSynthNote.t) (time : R) :
  let v' := resetEnvelopes v time in
  let held := AudioParam.value (gain (adsr v)) in
  let heldCutoff := AudioParam.value (frequency (lpFilter v)) in
  AudioParam.value (gain (adsr v')) = held
  /\ AudioParam.value (frequency (lpFilter v')) = heldCutoff
  /\ (forall later, time <= later ->
        amplitudeAt v' later = held /\ cutoffAt v' later = heldCutoff)
  /\ (amplitudeAt v' time = amplitudeAt v time
      <-> AudioParam.rendered (gain (adsr v)) time)
  /\ (cutoffAt v' time = cutoffAt v time
      <-> AudioParam.rendered (frequency (lpFilter v)) time)
  /\ (0 < release v -> amplitudeAt (stop (start v time) time) time = held)
  /\ (release v = 0 -> amplitudeAt (stop (start v time) time) time = 0).
Proof.
  cbv zeta.
  assert (Hpin : forall p later, time <= later ->
            valueAt (anchor p time) later = AudioParam.value p).
  { intros p later Hl.
    rewrite (valueAt_anchored _ _ _ _ _ later
               (anchor_events p time) (past_before _ _) Hl).
    reflexivity. }
  split; [reflexivity |]. split; [reflexivity |].
  split.
  { intros later Hl. unfold amplitudeAt, cutoffAt.
    rewrite reset_gain, reset_cutoff, !Hpin by exact Hl. split; reflexivity. }
  split.
  { unfold amplitudeAt, AudioParam.rendered.
    rewrite reset_gain, Hpin by lra. reflexivity. }
  split.
  { unfold cutoffAt, AudioParam.rendered.
    rewrite reset_cutoff, Hpin by lra. reflexivity. }
  split.
  - intros Hr. exact (stop_positive_release (start v time) time Hr).
  - intros Hz. exact (stop_zero_release (start v time) time Hz).
Qed.


End Release.

(** ** The envelope on the looper's default settings *)

Section DefaultVoice.

Import GenSynthNote.

Open Scope string_scope.

Lemma start_amplitude_legs_witness :
  let v := new "delay" 60 0.01 0.1 0.25 0.9 in
  (0 <= attack v /\ 0 <= decay v)
  /\ amplitudeAt (start v 0) (0 + attack v) = maxGain v
  /\ amplitudeAt (start v 0) (0 + attack v + decay v) = maxGain v * sustain v.
Proof.
  intros v.
  assert (Ha : 0 <= attack v) by (simpl; lra).
  assert (Hd : 0 <= decay v) by (simpl; lra).
  split; [split; assumption |].
  destruct (start_amplitude_legs v 0 Ha Hd) as (_ & Hpeak & _ & Hsus & _).
  split; [apply Hpeak; simpl; lra | exact Hsus].
Defined.

(** With [attack = decay = 0] the anchor and both ramps fall on [now];
    the last one issued decides the value there, [maxGain * sustain],
    and the amplitude is [maxGain] at no instant. *)
Lemma start_zero_decay_misses_peak :
  let v := new "delay" 60 0 0 0.25 0.9 in
  (0 <= attack v /\ 0 <= decay v /\ 0 <= sustain v <= 1 /\ 0 <= release v)
  /\ amplitudeAt (start v 0) (0 + attack v) <> maxGain v
  /\ (forall time, amplitudeAt (start v 0) time <> maxGain v).
Proof.
  intros v.
  assert (Ha : 0 <= attack v) by (simpl; lra).
  assert (Hd : 0 <= decay v) by (simpl; lra).
  assert (Hall : forall time, amplitudeAt (start v 0) time <> maxGain v).
  { intros time. unfold amplitudeAt.
    destruct (Rle_dec 0 time) as [Hle | Hlt].
    - rewrite (valueAt_anchored _ _ _ _ _ _
                 (start_gain_events v 0 Ha Hd) (past_before _ _)) by exact Hle.
      simpl. rle_cases; lra.
    - unfold valueAt. rewrite (start_gain_events v 0 Ha Hd).
      simpl. rle_cases; lra. }
  split; [simpl; lra |]. split; [apply Hall | exact Hall].
Qed.

Lemma start_cutoff_sweep_witness :
  let v := new "delay" 60 0.01 0.1 0.25 0.9 in
  (0 <= attack v /\ 0 <= decay v)
  /\ cutoffAt (start v 0) (0 + attack v + decay v) = 2 * freq v.
Proof.
  intros v.
  assert (Ha : 0 <= attack v) by (simpl; lra).
  assert (Hd : 0 <= decay v) by (simpl; lra).
  split; [split; assumption |].
  destruct (start_cutoff_sweep v 0 Ha Hd) as (_ & _ & Hend & _).
  apply Hend. lra.
Defined.

Lemma stop_release_ramp_witness :
  let v0 := new "delay" 60 0.01 0.1 0.25 0.9 in
  let v' := stop (run v0 [Start 0; Render 0.05; Start 0.05; Render 0.125]) 0.125 in
  0 <= release v0
  /\ amplitudeAt v' (0.125 + release v0) = 0
  /\ hd_error (osc_stops (osc v')) = Some (0.125 + release v0).
Proof.
  intros v0 v'.
  assert (Hr : 0 <= release v0) by (simpl; lra).
  split; [assumption |].
  destruct (stop_release_ramp v0 [Start 0; Render 0.05; Start 0.05; Render 0.125]
              0.125 Hr) as (_ & _ & Hzero & Hosc).
  split.
  - apply Hzero. lra.
  - unfold v'. rewrite Hosc. reflexivity.
Defined.

(** Mid-attack, with the getter still at the value of the last
    rendered quantum, the anchor moves the amplitude; and on a sounding
    voice with [release = 0] a trigger released at once drops it to
    0. *)
Lemma resetEnvelopes_moves_stale_amplitude :
  (let v := start (new "delay" 60 0.01 0.1 0.25 0.9) 0 in
   amplitudeAt v 0.005 = 0.125
   /\ amplitudeAt (resetEnvelopes v 0.005) 0.005 = 0
   /\ amplitudeAt (resetEnvelopes v 0.005) 0.005 <> amplitudeAt v 0.005)
  /\ (let w := render (start (new "delay" 60 0.01 0.1 0.25 0) 0) 0.2 in
      amplitudeAt w 0.3 = 0.0625
      /\ amplitudeAt (stop (start w 0.3) 0.3) 0.3 = 0
      /\ amplitudeAt (stop (start w 0.3) 0.3) 0.3 <> amplitudeAt w 0.3).
Proof.
  assert (Hev : forall rel,
            events (gain (adsr (start (new "delay" 60 0.01 0.1 0.25 rel) 0)))
            = Event SetValue 0 0
              :: [ Event LinearRamp 0.25 (0 + 0.01);
                   Event LinearRamp (0.25 * 0.25) (0 + 0.01 + 0.1) ]).
  { intros rel.
    assert (Ha : 0 <= attack (new "delay" 60 0.01 0.1 0.25 rel)) by (simpl; lra).
    assert (Hd : 0 <= decay (new "delay" 60 0.01 0.1 0.25 rel)) by (simpl; lra).
    rewrite (start_gain_events (new "delay" 60 0.01 0.1 0.25 rel) 0 Ha Hd).
    reflexivity. }
  assert (Hlegs : forall rel time, 0 <= time ->
            valueAt (gain (adsr (start (new "delay" 60 0.01 0.1 0.25 rel) 0))) time
            = valueFrom 0 0 [ Event LinearRamp 0.25 (0 + 0.01);
                              Event LinearRamp (0.25 * 0.25) (0 + 0.01 + 0.1) ]
                time).
  { intros rel time Ht.
    apply (valueAt_skip _ [] _ (Event SetValue 0 0) time (Hev rel));
      [constructor | simpl; lra]. }
  assert (Hmid : amplitudeAt (start (new "delay" 60 0.01 0.1 0.25 0.9) 0) 0.005
                 = 0.125).
  { unfold amplitudeAt. rewrite Hlegs by lra.
    simpl. rle_cases; try lra. unfold lerp. lra. }
  assert (Hpinned : amplitudeAt
                      (resetEnvelopes (start (new "delay" 60 0.01 0.1 0.25 0.9) 0)
                         0.005) 0.005 = 0).
  { unfold amplitudeAt. rewrite reset_gain, valueAt_anchor. reflexivity. }
  assert (Hw : amplitudeAt
                 (render (start (new "delay" 60 0.01 0.1 0.25 0) 0) 0.2) 0.3
               = 0.0625).
  { unfold amplitudeAt. rewrite render_gain.
    rewrite (valueAt_render_later _ 0.2 0.3 _ _ (Hev 0)) by (simpl; lra).
    rewrite Hlegs by lra. simpl. rle_cases; lra. }
  assert (Hdrop : amplitudeAt
                    (stop (start (render (start (new "delay" 60 0.01 0.1 0.25 0) 0)
                                    0.2) 0.3) 0.3) 0.3 = 0).
  { apply stop_zero_release. reflexivity. }
  cbv zeta. split; [split; [exact Hmid | split; [exact Hpinned |]] |].
  - rewrite Hmid, Hpinned. lra.
  - split; [exact Hw | split; [exact Hdrop |]].
    rewrite Hw, Hdrop. lra.
Qed.

Lemma resetEnvelopes_pins_getter_values_witness :
  let v := start (new "delay" 60 0.01 0.1 0.25 0.9) 0 in
  0 < release v
  /\ amplitudeAt (stop (start v 0.005) 0.005) 0.005
     = AudioParam.value (gain (adsr v)).
Proof.
  intros v.
  assert (Hr : 0 < release v) by (simpl; lra).
  split; [exact Hr |].
  pose proof (resetEnvelopes_pins_getter_values v 0.005) as H.
  cbv zeta in H. destruct H as (_ & _ & _ & _ & _ & H & _).
  exact (H Hr).
Defined.


(** The looper's first note at pitch 60, triggered at 0 and released
    one loop later, at 0.125 s. *)
Example default_voice_scenario :
  let v := start (new "delay" 60 0.01 0.1 0.25 0.9) 0 in
  let v' := stop (render v 0.125) 0.125 in
  amplitudeAt v 0.005 = 0.125
  /\ amplitudeAt v 0.01 = 0.25
  /\ amplitudeAt v 0.11 = 0.0625
  /\ amplitudeAt v' 0.125 = 0.0625
  /\ amplitudeAt v' 1.025 = 0
  /\ osc_stops (osc v') = [1.025].
Proof.
  intros v v'.
  set (v0 := new "delay" 60 0.01 0.1 0.25 0.9).
  assert (Ha : 0 <= attack v0) by (simpl; lra).
  assert (Hd : 0 <= decay v0) by (simpl; lra).
  assert (Hv : forall time, 0 <= time ->
            amplitudeAt v time
            = valueFrom 0 0 [ Event LinearRamp 0.25 (0 + 0.01);
                              Event LinearRamp (0.25 * 0.25) (0 + 0.01 + 0.1) ] time).
  { intros time Ht. unfold amplitudeAt.
    apply (valueAt_anchored _ _ _ _ _ _
             (start_gain_events v0 0 Ha Hd) (past_before _ _) Ht). }
  assert (Hcur : AudioParam.value (gain (adsr (render v 0.125))) = 0.0625).
  { change (amplitudeAt v 0.125 = 0.0625). rewrite Hv by lra.
    simpl. rle_cases; lra. }
  assert (Hr : 0 <= release (render v 0.125)) by (simpl; lra).
  assert (Hv' : forall time, 0.125 <= time ->
            amplitudeAt v' time
            = valueFrom 0.125 0.0625 [ Event LinearRamp 0 (0.125 + 0.9) ] time).
  { intros time Ht. unfold amplitudeAt. rewrite <- Hcur.
    apply (valueAt_anchored _ _ _ _ _ _
             (stop_gain_events (render v 0.125) 0.125 Hr) (past_before _ _) Ht). }
  repeat split.
  - rewrite Hv by lra. simpl. rle_cases; try lra. unfold lerp. lra.
  - rewrite Hv by lra. simpl. rle_cases; try lra. unfold lerp. lra.
  - rewrite Hv by lra. simpl. rle_cases; lra.
  - rewrite Hv' by lra. simpl. rle_cases; try lra. unfold lerp. lra.
  - rewrite Hv' by lra. simpl. rle_cases; lra.
  - simpl. f_equal. lra.
Qed.

End DefaultVoice.

(** ** Pitch to frequency *)

Section Pitch.

Import GenSynthNote.

Lemma Rpower_2_pos (x : R) : 0 < Rpower 2 x.
Proof. unfold Rpower. apply exp_pos. Qed.

Lemma mtof_A4 : mtof 69 = 440.
Proof.
  unfold mtof. replace ((69 - 69) / 12) with 0 by lra.
  rewrite Rpower_O by lra. lra.
Qed.

Lemma mtof_octave (mn : R) : mtof (mn + 12) = 2 * mtof mn.
Proof.
  unfold mtof. replace ((mn + 12 - 69) / 12) with ((mn - 69) / 12 + 1) by lra.
  rewrite Rpower_plus, Rpower_1 by lra. lra.
Qed.

Lemma mtof_semitone (mn : R) : mtof (mn + 1) = mtof mn * Rpower 2 (/ 12).
Proof.
  unfold mtof. replace ((mn + 1 - 69) / 12) with ((mn - 69) / 12 + / 12) by lra.
  rewrite Rpower_plus. lra.
Qed.

(** Middle C: the fourth power of [2 ^ (-9/12)] is [1/8]. *)
Lemma mtof_C4 : 261.62 < mtof 60 < 261.64.
Proof.
  unfold mtof.
  set (x := Rpower 2 ((60 - 69) / 12)).
  assert (Hx : 0 < x) by apply Rpower_2_pos.
  assert (H4 : (x * x) * (x * x) = / 8).
  { unfold x. rewrite <- !Rpower_plus.
    replace ((60 - 69) / 12 + (60 - 69) / 12 + ((60 - 69) / 12 + (60 - 69) / 12))
      with (- INR 3) by (simpl; lra).
    rewrite Rpower_Ropp, Rpower_pow by lra. simpl. f_equal. lra. }
  assert (Hy : 0 < x * x) by nra.
  assert (Hy1 : 0.35355 < x * x < 0.35356) by nra.
  split; nra.
Qed.

Lemma perform_osc_frequency (v : GenSynthNote.t) (c : call) :
  osc_frequency (osc (perform v c)) = osc_frequency (osc v).
Proof. destruct c; reflexivity. Qed.

Lemma run_osc_frequency (cs : list call) :
  forall v, osc_frequency (osc (run v cs)) = osc_frequency (osc v).
Proof.
  unfold run. induction cs as [| c cs IH]; intros v; simpl.
  - reflexivity.
  - rewrite IH. apply perform_osc_frequency.
Qed.

(** C7.  The constructor sets [freq] to [440 * 2 ^ ((p - 69) / 12)] for
    the pitch [p], the oscillator runs at that frequency, and no later
    call changes either; pitch 69 gives 440 Hz, pitch 60 a frequency
    between 261.62 and 261.64 Hz, twelve pitches up double the
    frequency and one pitch up multiplies it by [2 ^ (1/12)]. *)
Theorem mtof_equal_temperament
  (p : Z) (dest : string) (a d s r : R) (cs : list call) :
  let v := run (new dest (IZR p) a d s r) cs in
  freq v = 440 * Rpower 2 (IZR (p - 69) / 12)
  /\ osc_frequency (osc v) = freq v
  /\ mtof 69 = 440
  /\ 261.62 < mtof 60 < 261.64
  /\ mtof (IZR p + 12) = 2 * mtof (IZR p)
  /\ mtof (IZR p + 1) = mtof (IZR p) * Rpower 2 (/ 12).
Proof.
  intros v. unfold v.
  rewrite run_freq, run_osc_frequency. simpl.
  repeat split.
  - unfold mtof. now rewrite minus_IZR.
  - apply mtof_A4.
  - apply mtof_C4.
  - apply mtof_C4.
  - apply mtof_octave.
  - apply mtof_semitone.
Qed.

End Pitch.

(** ** A voice before its first trigger *)

Section Silence.

Import GenSynthNote.

Lemma quiet_valueFrom (l : list event) (time : R) :
  Forall (fun e => ev_value e = 0) l ->
  forall T0, valueFrom T0 0 l time = 0.
Proof.
  induction 1 as [| e l He _ IH]; intros T0; simpl.
  - reflexivity.
  - destruct (Rle_dec (ev_time e) time).
    + rewrite He. apply IH.
    + destruct (ev_kind e); [reflexivity |].
      unfold lerp. rewrite He. lra.
Qed.

Lemma quiet_valueAt (p : AudioParam.t) (time : R) :
  quiet p -> valueAt p time = 0.
Proof.
  intros [Hv He]. unfold valueAt.
  destruct He as [| e l He Hl]; [exact Hv |].
  destruct (Rle_dec (ev_time e) time); [| exact Hv].
  rewrite He. now apply quiet_valueFrom.
Qed.

Lemma quiet_insert (e : event) (l : list event) :
  ev_value e = 0 ->
  Forall (fun x => ev_value x = 0) l ->
  Forall (fun x => ev_value x = 0) (insertEvent e l).
Proof.
  intros He. induction 1 as [| x l Hx Hl IH]; simpl.
  - now constructor.
  - destruct (Rle_dec (ev_time x) (ev_time e)); repeat (constructor; try assumption).
Qed.

Lemma quiet_anchor (p : AudioParam.t) (time : R) :
  quiet p -> quiet (anchor p time).
Proof.
  intros [Hv He]. split; [exact Hv |].
  unfold anchor, setValueAtTime, cancelScheduledValues, past. simpl.
  apply quiet_insert; [exact Hv |].
  apply Forall_forall. intros x Hx. apply filter_In in Hx.
  rewrite Forall_forall in He. now apply He.
Qed.

Lemma quiet_ramp_to_zero (p : AudioParam.t) (endTime : R) :
  quiet p -> quiet (linearRampToValueAtTime p 0 endTime).
Proof.
  intros [Hv He]. split; [exact Hv |].
  unfold linearRampToValueAtTime. simpl. now apply quiet_insert.
Qed.

Lemma quiet_render (p : AudioParam.t) (time : R) :
  quiet p -> quiet (AudioParam.render p time).
Proof.
  intros Hq. split; [| apply Hq]. simpl. now apply quiet_valueAt.
Qed.

Lemma quiet_perform (v : GenSynthNote.t) (c : call) :
  isStart c = false ->
  quiet (gain (adsr v)) -> quiet (gain (adsr (perform v c))).
Proof.
  destruct c as [now | now | time | now]; intros Hc Hq; cbn [perform].
  - simpl in Hc. discriminate Hc.
  - rewrite stop_gain. now apply quiet_ramp_to_zero, quiet_anchor.
  - rewrite reset_gain. now apply quiet_anchor.
  - now apply quiet_render.
Qed.

Lemma quiet_run (cs : list call) :
  untriggered cs = true ->
  forall v, quiet (gain (adsr v)) -> quiet (gain (adsr (run v cs))).
Proof.
  unfold run, untriggered.
  induction cs as [| c cs IH]; simpl; intros Hcs v Hq.
  - exact Hq.
  - apply andb_true_iff in Hcs. destruct Hcs as [Hc Hcs].
    apply IH; [exact Hcs |].
    apply quiet_perform; [| exact Hq].
    now apply negb_true_iff.
Qed.

(** C10.  The constructor sets the gain to 0 with nothing scheduled and
    [maxGain] to 0.25 whatever its arguments; no call changes
    [maxGain]; and as long as [start()] has not been called the
    amplitude is 0 at every instant. *)
Theorem new_voice_is_silent
  (dest : string) (midiNote a d s r : R) (cs : list call) :
  untriggered cs = true ->
  let v := new dest midiNote a d s r in
  gain (adsr v) = AudioParam.make 0
  /\ maxGain v = 0.25
  /\ (forall cs', maxGain (run v cs') = 0.25)
  /\ (forall time, amplitudeAt (run v cs) time = 0).
Proof.
  intros Hcs v. repeat split.
  - intros cs'. now rewrite run_maxGain.
  - intros time. unfold amplitudeAt. apply quiet_valueAt.
    apply quiet_run; [exact Hcs |].
    split; [reflexivity | constructor].
Qed.

Lemma new_voice_is_silent_witness :
  let cs := [Render 0.05; Stop 0.125; Render 0.5; ResetEnvelopes 0.5] in
  untriggered cs = true
  /\ amplitudeAt (run (new "delay" 60 0.01 0.1 0.25 0.9) cs) 0.3 = 0.
Proof.
  intros cs. split; [reflexivity |].
  apply (new_voice_is_silent "delay" 60 0.01 0.1 0.25 0.9 cs eq_refl).
Defined.

End Silence.

(** ** Picking a pitch *)

Section Pick.

Context {A : Type}.
Variable pool : list A.
Variable r : R.
Hypothesis pool_nonempty : pool <> [].
Hypothesis draw : 0 <= r < 1.

Let n := List.length pool.

Lemma pool_size : 0 < INR n.
Proof.
  apply lt_0_INR. unfold n. destruct pool; [contradiction | simpl; lia].
Qed.

Lemma randomIndex_bounds :
  (0 <= Looper.randomIndex pool r < Z.of_nat n)%Z.
Proof.
  unfold Looper.randomIndex. fold n.
  pose proof pool_size as Hn.
  pose proof (Zfloor_bound (r * INR n)) as [Hlo Hhi].
  split.
  - apply Zfloor_lub. simpl. nra.
  - apply lt_IZR. rewrite <- INR_IZR_INZ. nra.
Qed.

Lemma pick_member :
  exists p, Looper.pick pool r = Some p /\ In p pool.
Proof.
  pose proof randomIndex_bounds as [Hlo Hhi].
  unfold Looper.pick, Looper.index.
  destruct (Z.ltb_spec (Looper.randomIndex pool r) 0) as [Hneg | _]; [lia |].
  destruct (nth_error pool (Z.to_nat (Looper.randomIndex pool r))) as [p |] eqn:Hp.
  - exists p. split; [reflexivity |]. eapply nth_error_In. exact Hp.
  - apply nth_error_None in Hp. fold n in Hp. lia.
Qed.


End Pick.

Section Firing.

Import Looper.

Lemma midiNotes_nonempty : midiNotes <> [].
Proof. discriminate. Qed.

Lemma playANote_some (s : state) (r now : R) :
  0 <= r < 1 ->
  exists p,
    In p midiNotes
    /\ playANote s r now
       = Some {| attack := attack s; decay := decay s;
                 sustain := sustain s; release := release s;
                 looper := looper s; intervals := intervals s;
                 timeouts := timeouts s ++ [(nextHandle s, List.length (notes s))];
                 nextHandle := S (nextHandle s);
                 resumed := resumed s;
                 notes := notes s ++
                   [GenSynthNote.start
                      (GenSynthNote.new "delay" (IZR p)
                         (attack s) (decay s) (sustain s) (release s)) now] |}.
Proof.
  intros Hr.
  destruct (pick_member midiNotes r midiNotes_nonempty Hr) as (p & Hp & Hin).
  exists p. split; [exact Hin |].
  unfold playANote. rewrite Hp. reflexivity.
Qed.



End Firing.

(** ** Sliders and voices *)

Section Sliders.

Import Looper.

Lemma slider_step (s : state) (e : event) :
  isSlider e = true ->
  notes (step s e) = notes s
  /\ timeouts (step s e) = timeouts s
  /\ intervals (step s e) = intervals s.
Proof.
  destruct e; simpl; intros He; try discriminate He; repeat split.
Qed.

Lemma slider_steps (es : list event) :
  forallb isSlider es = true ->
  forall s,
    notes (steps s es) = notes s
    /\ timeouts (steps s es) = timeouts s
    /\ intervals (steps s es) = intervals s.
Proof.
  unfold steps.
  induction es as [| e es IH]; simpl; intros Hes s.
  - repeat split.
  - apply andb_true_iff in Hes. destruct Hes as [He Hes].
    destruct (IH Hes (step s e)) as (Hn & Ht & Hi).
    destruct (slider_step s e He) as (Hn' & Ht' & Hi').
    rewrite Hn, Ht, Hi. repeat split; assumption.
Qed.

Lemma timeoutFires_notes (s s' : state) (h : nat) (now : R) :
  notes s' = notes s ->
  timeouts s' = timeouts s ->
  notes (timeoutFires s' h now) = notes (timeoutFires s h now).
Proof.
  intros Hn Ht. unfold timeoutFires. rewrite Ht.
  destruct (findTimeout (timeouts s) h); simpl; [now rewrite Hn | exact Hn].
Qed.

(** C5.  The voice [playANote] makes carries the four envelope values
    of that moment; slider input afterwards changes no voice of the
    page and no pending timeout, so the [stop()] a timeout runs later
    gives the same voices as it would have without the input; and no
    call on a voice changes its six scalar fields. *)
Theorem voice_keeps_its_envelope
  (s s1 : state) (r now : R) (es : list event) :
  playANote s r now = Some s1 ->
  forallb isSlider es = true ->
  (exists note,
      notes (steps s1 es) = notes s ++ [note]
      /\ GenSynthNote.attack note = attack s
      /\ GenSynthNote.decay note = decay s
      /\ GenSynthNote.sustain note = sustain s
      /\ GenSynthNote.release note = release s
      /\ forall cs,
           GenSynthNote.settings (GenSynthNote.run note cs)
           = GenSynthNote.settings note)
  /\ notes (steps s1 es) = notes s1
  /\ timeouts (steps s1 es) = timeouts s1
  /\ (forall h later,
        notes (timeoutFires (steps s1 es) h later)
        = notes (timeoutFires s1 h later)).
Proof.
  intros Hplay Hes.
  destruct (slider_steps es Hes s1) as (Hn & Ht & _).
  split; [| split; [exact Hn | split; [exact Ht |]]].
  - unfold playANote in Hplay.
    destruct (pick midiNotes r) as [p |]; [| discriminate Hplay].
    injection Hplay as <-. rewrite Hn. simpl.
    eexists. split; [reflexivity |]. repeat split.
    intros cs. apply run_settings.
  - intros h later. now apply timeoutFires_notes.
Qed.

Lemma voice_keeps_its_envelope_witness :
  exists s1,
    playANote init 0.5 0 = Some s1
    /\ notes (steps s1 [RelTimeInput 2; AttTimeInput 0.5]) = notes s1.
Proof.
  destruct (playANote_some init 0.5 0 ltac:(lra)) as (p & _ & Hplay).
  eexists. split; [exact Hplay |].
  apply (voice_keeps_its_envelope init _ 0.5 0
           [RelTimeInput 2; AttTimeInput 0.5] Hplay eq_refl).
Defined.

End Sliders.

(** ** The interval of the looper *)

Section Interval.

Import Looper.

Lemma tidy_init : tidy init.
Proof.
  split; [reflexivity |]. split; [simpl; lia |].
  intros h Hh. discriminate Hh.
Qed.

Lemma clearInterval_own (h : nat) :
  clearInterval [h] (Some h) = [].
Proof.
  simpl. destruct (Nat.eq_dec h h) as [_ | Hn]; [reflexivity | contradiction].
Qed.

Lemma tidy_clear (s : state) :
  tidy s -> clearInterval (intervals s) (looper s) = [].
Proof.
  intros (Hi & _ & _). rewrite Hi.
  destruct (looper s) as [h |]; [apply clearInterval_own | reflexivity].
Qed.

Lemma tidy_clickStart_intervals (s : state) :
  tidy s -> intervals (clickStart s) = [nextHandle s].
Proof.
  intros Ht. pose proof (tidy_clear s Ht) as Hc.
  destruct Ht as (Hi & Hpos & Hh). unfold clickStart. simpl.
  destruct (looper s) as [[| h] |] eqn:Hl; simpl.
  - specialize (Hh 0%nat eq_refl). lia.
  - simpl in Hc. rewrite Hc. reflexivity.
  - rewrite Hi. reflexivity.
Qed.

Lemma tidy_step (s : state) (e : event) :
  tidy s -> tidy (step s e).
Proof.
  intros Ht. pose proof Ht as (Hi & Hpos & Hh).
  destruct e as [| | h r now | h now | x | x | x | x | now]; simpl.
  - split; [apply (tidy_clickStart_intervals s Ht) |].
    split; [simpl; lia |].
    simpl. intros h Heq. injection Heq as <-. lia.
  - split; [simpl; apply (tidy_clear s Ht) |].
    split; [exact Hpos |]. simpl. intros h Heq. discriminate Heq.
  - unfold intervalFires.
    destruct (existsb (Nat.eqb h) (intervals s)); [| exact Ht].
    unfold playANote. destruct (pick midiNotes r); [| exact Ht].
    split; [exact Hi |]. split; [simpl; lia |].
    simpl. intros h' Heq. specialize (Hh h' Heq). lia.
  - unfold timeoutFires.
    destruct (findTimeout (timeouts s) h); exact Ht.
  - exact Ht.
  - exact Ht.
  - exact Ht.
  - exact Ht.
  - exact Ht.
Qed.

Lemma reachable_tidy (s : state) :
  reachable s -> tidy s.
Proof.
  induction 1 as [| s e _ IH]; [apply tidy_init | now apply tidy_step].
Qed.

(** C9.  In every state the page can reach at most one interval is set,
    the one [looper] holds.  A click on start leaves exactly the new
    interval, and does what a click on stop followed by a click on
    start does.  A click on stop leaves no interval, and changes
    neither the voices nor the pending timeouts, so the [stop()] a
    timeout runs later gives the same voices as it would have without
    the click. *)
Theorem restart_leaves_one_interval (s : state) :
  reachable s ->
  (List.length (intervals s) <= 1)%nat
  /\ intervals (clickStart s) = [nextHandle s]
  /\ looper (clickStart s) = Some (nextHandle s)
  /\ clickStart s = clickStart (clickStop s)
  /\ intervals (clickStop s) = []
  /\ notes (clickStop s) = notes s
  /\ timeouts (clickStop s) = timeouts s
  /\ (forall h now,
        notes (timeoutFires (clickStop s) h now)
        = notes (timeoutFires s h now)).
Proof.
  intros Hs. pose proof (reachable_tidy s Hs) as Ht.
  pose proof (tidy_clickStart_intervals s Ht) as Hstart.
  pose proof (tidy_clear s Ht) as Hclear.
  split.
  { destruct Ht as (Hi & _ & _). rewrite Hi.
    destruct (looper s); simpl; lia. }
  split; [exact Hstart |].
  split; [reflexivity |].
  split.
  { unfold clickStart in Hstart. simpl in Hstart.
    unfold clickStart at 1. rewrite Hstart.
    unfold clickStart, clickStop. simpl. rewrite Hclear. reflexivity. }
  split; [exact Hclear |].
  split; [reflexivity |].
  split; [reflexivity |].
  intros h now. now apply timeoutFires_notes.
Qed.

Lemma restart_leaves_one_interval_witness :
  let s := steps init [ClickStart; IntervalFires 1 0.5 0; ClickStart] in
  reachable s
  /\ intervals (clickStart s) = [nextHandle s]
  /\ clickStart s = clickStart (clickStop s).
Proof.
  intros s.
  assert (Hs : reachable s) by (repeat apply reachable_step; apply reachable_init).
  split; [exact Hs |].
  destruct (restart_leaves_one_interval s Hs) as (_ & H1 & _ & H2 & _).
  split; [exact H1 | exact H2].
Defined.

End Interval.

(** ** Timelines stay in time order *)

Section Ordered.

Import GenSynthNote Invariant.

Lemma insertEvent_In (e y : event) (l : list event) :
  In y (insertEvent e l) <-> y = e \/ In y l.
Proof.
  induction l as [| x r IH]; simpl.
  - intuition.
  - destruct (Rle_dec (ev_time x) (ev_time e)); simpl; rewrite ?IH; intuition.
Qed.

Lemma insertEvent_sorted (e : event) (l : list event) :
  StronglySorted (fun a b => ev_time a <= ev_time b) l ->
  StronglySorted (fun a b => ev_time a <= ev_time b) (insertEvent e l).
Proof.
  induction 1 as [| x r Hr IH Hx]; simpl.
  - constructor; constructor.
  - destruct (Rle_dec (ev_time x) (ev_time e)) as [Hle | Hgt].
    + constructor; [exact IH |].
      apply Forall_forall. intros y Hy. apply insertEvent_In in Hy.
      destruct Hy as [-> | Hy]; [exact Hle |].
      rewrite Forall_forall in Hx. now apply Hx.
    + constructor; [now constructor |].
      constructor; [lra |].
      eapply Forall_impl; [| exact Hx]. simpl. intros y Hy. lra.
Qed.

Lemma filter_sorted (f : event -> bool) (l : list event) :
  StronglySorted (fun a b => ev_time a <= ev_time b) l ->
  StronglySorted (fun a b => ev_time a <= ev_time b) (filter f l).
Proof.
  induction 1 as [| x r Hr IH Hx]; simpl.
  - constructor.
  - destruct (f x); [| exact IH].
    constructor; [exact IH |].
    apply Forall_forall. intros y Hy. apply filter_In in Hy.
    rewrite Forall_forall in Hx. now apply Hx.
Qed.

Lemma ordered_anchor (p : AudioParam.t) (time : R) :
  ordered p -> ordered (anchor p time).
Proof.
  intros Hp. unfold ordered, anchor, setValueAtTime, cancelScheduledValues, past.
  simpl. now apply insertEvent_sorted, filter_sorted.
Qed.

Lemma ordered_ramp (p : AudioParam.t) (v endTime : R) :
  ordered p -> ordered (linearRampToValueAtTime p v endTime).
Proof.
  intros Hp. unfold ordered, linearRampToValueAtTime. simpl.
  now apply insertEvent_sorted.
Qed.

Lemma ordered_perform (v : GenSynthNote.t) (c : call) :
  ordered (gain (adsr v)) /\ ordered (frequency (lpFilter v)) ->
  ordered (gain (adsr (perform v c)))
  /\ ordered (frequency (lpFilter (perform v c))).
Proof.
  intros [Hg Hf].
  destruct c as [now | now | time | now]; cbn [perform].
  - rewrite start_gain, start_cutoff.
    split; repeat apply ordered_ramp; now apply ordered_anchor.
  - rewrite stop_gain, stop_cutoff.
    split; [apply ordered_ramp |]; now apply ordered_anchor.
  - rewrite reset_gain, reset_cutoff.
    split; now apply ordered_anchor.
  - split; assumption.
Qed.

(** Whatever is called on a voice, at whatever instants and with
    whatever envelope, both of its timelines stay in time order. *)
Theorem run_keeps_timelines_ordered
  (dest : string) (midiNote a d s r : R) (cs : list call) :
  let v := run (new dest midiNote a d s r) cs in
  ordered (gain (adsr v)) /\ ordered (frequency (lpFilter v)).
Proof.
  cbv zeta. unfold run.
  assert (H0 : ordered (gain (adsr (new dest midiNote a d s r)))
               /\ ordered (frequency (lpFilter (new dest midiNote a d s r))))
    by (split; constructor).
  revert H0. generalize (new dest midiNote a d s r).
  induction cs as [| c cs IH]; intros v Hv; simpl.
  - exact Hv.
  - apply IH. now apply ordered_perform.
Qed.

End Ordered.

(** ** Bounds on the amplitude and on the cutoff *)

Section Bounds.

Import GenSynthNote Invariant.

Variables lo hi : R.

Lemma lerp_between (T0 V0 T1 V1 time : R) :
  T0 <= time < T1 ->
  lo <= V0 <= hi -> lo <= V1 <= hi ->
  lo <= lerp T0 V0 T1 V1 time <= hi.
Proof.
  intros Ht H0 H1. unfold lerp.
  set (c := (time - T0) / (T1 - T0)).
  assert (Hc : c * (T1 - T0) = time - T0) by (unfold c; field; lra).
  assert (Hc0 : 0 <= c) by nra.
  assert (Hc1 : c <= 1) by nra.
  split; nra.
Qed.

Lemma valueFrom_within (l : list event) (time : R) :
  Forall (fun e => lo <= ev_value e <= hi) l ->
  forall T0 V0, T0 <= time -> lo <= V0 <= hi ->
  lo <= valueFrom T0 V0 l time <= hi.
Proof.
  induction 1 as [| e l He _ IH]; intros T0 V0 Ht HV; simpl.
  - exact HV.
  - destruct (Rle_dec (ev_time e) time) as [Hle | Hgt].
    + now apply IH.
    + destruct (ev_kind e); [exact HV |].
      apply lerp_between; [lra | exact HV | exact He].
Qed.

Lemma valueAt_within (p : AudioParam.t) (time : R) :
  within lo hi p -> lo <= valueAt p time <= hi.
Proof.
  intros [Hv He]. unfold valueAt.
  destruct He as [| e l He Hl]; [exact Hv |].
  destruct (Rle_dec (ev_time e) time) as [Hle | Hgt]; [| exact Hv].
  apply valueFrom_within; [exact Hl | lra | exact He].
Qed.

Lemma within_insert (e : event) (l : list event) :
  lo <= ev_value e <= hi ->
  Forall (fun x => lo <= ev_value x <= hi) l ->
  Forall (fun x => lo <= ev_value x <= hi) (insertEvent e l).
Proof.
  intros He Hl. apply Forall_forall. intros y Hy.
  apply insertEvent_In in Hy. destruct Hy as [-> | Hy]; [exact He |].
  rewrite Forall_forall in Hl. now apply Hl.
Qed.

Lemma within_anchor (p : AudioParam.t) (time : R) :
  within lo hi p -> within lo hi (anchor p time).
Proof.
  intros [Hv He]. split; [exact Hv |].
  unfold anchor, setValueAtTime, cancelScheduledValues, past. simpl.
  apply within_insert; [exact Hv |].
  apply Forall_forall. intros x Hx. apply filter_In in Hx.
  rewrite Forall_forall in He. now apply He.
Qed.

Lemma within_ramp (p : AudioParam.t) (v endTime : R) :
  lo <= v <= hi ->
  within lo hi p -> within lo hi (linearRampToValueAtTime p v endTime).
Proof.
  intros Hv [Hp He]. split; [exact Hp |].
  unfold linearRampToValueAtTime. simpl. now apply within_insert.
Qed.

Lemma within_render (p : AudioParam.t) (time : R) :
  within lo hi p -> within lo hi (AudioParam.render p time).
Proof.
  intros Hp. split; [| apply Hp]. simpl. now apply valueAt_within.
Qed.

End Bounds.

Section VoiceBounds.

Import GenSynthNote Invariant.

Lemma mtof_pos (mn : R) : 0 < mtof mn.
Proof.
  unfold mtof. pose proof (Rpower_2_pos ((mn - 69) / 12)). lra.
Qed.

Lemma gain_within_perform (v : GenSynthNote.t) (c : call) :
  0 <= maxGain v -> 0 <= sustain v <= 1 ->
  within 0 (maxGain v) (gain (adsr v)) ->
  within 0 (maxGain v) (gain (adsr (perform v c))).
Proof.
  intros Hm Hs Hg.
  destruct c as [now | now | time | now]; cbn [perform].
  - rewrite start_gain.
    apply within_ramp; [nra |].
    apply within_ramp; [lra |].
    now apply within_anchor.
  - rewrite stop_gain.
    apply within_ramp; [lra |]. now apply within_anchor.
  - rewrite reset_gain. now apply within_anchor.
  - now apply within_render.
Qed.

Lemma cutoff_within_perform (v : GenSynthNote.t) (c : call) :
  0 <= freq v ->
  within (2 * freq v) (8 * freq v) (frequency (lpFilter v)) ->
  within (2 * freq v) (8 * freq v) (frequency (lpFilter (perform v c))).
Proof.
  intros Hf Hc.
  destruct c as [now | now | time | now]; cbn [perform].
  - rewrite start_cutoff.
    apply within_ramp; [lra |]. now apply within_anchor.
  - rewrite stop_cutoff. now apply within_anchor.
  - rewrite reset_cutoff. now apply within_anchor.
  - now apply within_render.
Qed.

Lemma run_gain_within (cs : list call) :
  forall v,
    0 <= maxGain v -> 0 <= sustain v <= 1 ->
    within 0 (maxGain v) (gain (adsr v)) ->
    within 0 (maxGain v) (gain (adsr (run v cs))).
Proof.
  unfold run.
  induction cs as [| c cs IH]; intros v Hm Hs Hg; simpl.
  - exact Hg.
  - pose proof (perform_settings v c) as Hset. unfold settings in Hset.
    injection Hset as _ _ _ Hsus _ Hmax.
    rewrite <- Hmax. apply IH.
    + now rewrite Hmax.
    + now rewrite Hsus.
    + rewrite Hmax. now apply gain_within_perform.
Qed.

Lemma run_cutoff_within (cs : list call) :
  forall v,
    0 <= freq v ->
    within (2 * freq v) (8 * freq v) (frequency (lpFilter v)) ->
    within (2 * freq v) (8 * freq v) (frequency (lpFilter (run v cs))).
Proof.
  unfold run.
  induction cs as [| c cs IH]; intros v Hf Hc; simpl.
  - exact Hc.
  - pose proof (perform_settings v c) as Hset. unfold settings in Hset.
    injection Hset as Hfreq _ _ _ _ _.
    rewrite <- Hfreq. apply IH.
    + now rewrite Hfreq.
    + rewrite Hfreq. now apply cutoff_within_perform.
Qed.

(** With a sustain level in [[0, 1]], the amplitude of a voice lies in
    [[0, 0.25]] at every instant, whatever is called on it, at whatever
    instants and with whatever attack, decay and release. *)
Theorem amplitude_never_above_maxGain
  (dest : string) (midiNote a d s r : R) (cs : list call) (time : R) :
  0 <= s <= 1 ->
  0 <= amplitudeAt (run (new dest midiNote a d s r) cs) time <= 0.25.
Proof.
  intros Hs.
  apply (valueAt_within 0 (maxGain (new dest midiNote a d s r))).
  apply run_gain_within.
  - simpl. lra.
  - exact Hs.
  - split; [simpl; lra | constructor].
Qed.

Lemma amplitude_never_above_maxGain_witness :
  0 <= 0.25 <= 1
  /\ 0 <= amplitudeAt
            (run (new "delay" 60 0.01 0.1 0.25 0.9)
               [Start 0; Render 0.005; Start 0.005; Render 0.05; Stop 0.05])
            0.3 <= 0.25.
Proof.
  assert (Hs : 0 <= 0.25 <= 1) by lra.
  split; [exact Hs |].
  apply (amplitude_never_above_maxGain "delay" 60 0.01 0.1 0.25 0.9
           [Start 0; Render 0.005; Start 0.005; Render 0.05; Stop 0.05] 0.3 Hs).
Defined.

(** For a pitch whose first cutoff, eight times its frequency, is
    within the nominal range [[0, nyquist]] of the filter's frequency
    parameter, the cutoff of the voice lies between twice and eight
    times its frequency at every instant, whatever is called on it: it
    never leaves the nominal range and the filter never closes below
    the second harmonic. *)
Theorem cutoff_between_2f_and_8f
  (nyquist : R) (dest : string) (midiNote a d s r : R)
  (cs : list call) (time : R) :
  8 * mtof midiNote <= nyquist ->
  let v := run (new dest midiNote a d s r) cs in
  2 * freq v <= cutoffAt v time <= 8 * freq v
  /\ freq v < cutoffAt v time
  /\ 0 <= cutoffAt v time <= nyquist.
Proof.
  intros Hny w. pose proof (mtof_pos midiNote) as Hpos.
  assert (Hw : freq w = mtof midiNote) by apply run_freq.
  assert (Hc : within (2 * mtof midiNote) (8 * mtof midiNote)
                 (frequency (lpFilter w))).
  { apply (run_cutoff_within cs (new dest midiNote a d s r)).
    - simpl. lra.
    - split; [simpl; lra | constructor]. }
  rewrite Hw.
  pose proof (valueAt_within _ _ _ time Hc) as Hb.
  unfold cutoffAt. split; [exact Hb | split; lra].
Qed.

Lemma cutoff_between_2f_and_8f_witness :
  8 * mtof 60 <= 22050
  /\ 0 <= cutoffAt
            (run (new "delay" 60 0.01 0.1 0.25 0.9)
               [Start 0; Render 0.05; Stop 0.125; Render 0.5])
            0.3 <= 22050.
Proof.
  assert (Hny : 8 * mtof 60 <= 22050) by (pose proof mtof_C4; lra).
  split; [exact Hny |].
  pose proof (cutoff_between_2f_and_8f 22050 "delay" 60 0.01 0.1 0.25 0.9
                [Start 0; Render 0.05; Stop 0.125; Render 0.5] 0.3 Hny) as H.
  cbv zeta in H. destruct H as (_ & _ & H). exact H.
Defined.

End VoiceBounds.

(** ** Higher pitch, higher frequency *)

Section PitchOrder.

Import GenSynthNote.

Lemma mtof_increasing (a b : R) :
  a < b -> mtof a < mtof b.
Proof.
  intros Hab. unfold mtof.
  assert (H : Rpower 2 ((a - 69) / 12) < Rpower 2 ((b - 69) / 12))
    by (apply Rpower_lt; lra).
  lra.
Qed.

(** [mtof] is positive and strictly increasing: it orders pitches as
    it orders their frequencies, and two pitches with the same
    frequency are the same pitch. *)
Theorem mtof_orders_pitches (a b : R) :
  0 < mtof a
  /\ (mtof a < mtof b <-> a < b)
  /\ (mtof a = mtof b <-> a = b).
Proof.
  split; [apply mtof_pos |]. split.
  - split; [| apply mtof_increasing].
    intros H. destruct (Rlt_dec a b) as [Hlt | Hge]; [exact Hlt |].
    destruct (Req_dec a b) as [-> | Hne]; [lra |].
    assert (Hba : b < a) by lra.
    pose proof (mtof_increasing b a Hba). lra.
  - split; [| now intros ->].
    intros H. destruct (Rtotal_order a b) as [Hlt | [Heq | Hgt]].
    + pose proof (mtof_increasing a b Hlt). lra.
    + exact Heq.
    + pose proof (mtof_increasing b a Hgt). lra.
Qed.

End PitchOrder.

(** ** Calls at one instant *)

Section SameInstant.

Import GenSynthNote.

Lemma filter_all {A : Type} (f : A -> bool) (l : list A) :
  Forall (fun x => f x = true) l -> filter f l = l.
Proof.
  induction 1 as [| x r Hx _ IH]; simpl; [reflexivity |].
  now rewrite Hx, IH.
Qed.

Lemma filter_none {A : Type} (f : A -> bool) (l : list A) :
  Forall (fun x => f x = false) l -> filter f l = [].
Proof.
  induction 1 as [| x r Hx _ IH]; simpl; [reflexivity |].
  now rewrite Hx.
Qed.

Lemma past_past (p : AudioParam.t) (time : R) :
  filter (before time) (past p time) = past p time.
Proof.
  apply filter_all. apply Forall_forall. intros e He.
  unfold past in He. apply filter_In in He. apply He.
Qed.

(** Events at or after [time] on top of the past of [p] are cancelled
    by an anchor at [time]. *)
Lemma anchor_again (p q : AudioParam.t) (l : list event) (time : R) :
  AudioParam.value q = AudioParam.value p ->
  events q = past p time ++ l ->
  Forall (fun e => time <= ev_time e) l ->
  anchor q time = anchor p time.
Proof.
  intros Hv Hq Hl.
  unfold anchor, setValueAtTime, cancelScheduledValues. simpl.
  rewrite Hv. f_equal. f_equal.
  unfold past at 1. rewrite Hq, filter_app, past_past.
  rewrite (filter_none (before time) l), app_nil_r; [reflexivity |].
  eapply Forall_impl; [| exact Hl]. simpl. intros e He.
  unfold before. destruct (Rlt_dec (ev_time e) time); [lra | reflexivity].
Qed.

Ltac times_ge :=
  repeat (apply Forall_cons; [simpl; lra |]); apply Forall_nil.

Lemma anchor_anchor (p : AudioParam.t) (time : R) :
  anchor (anchor p time) time = anchor p time.
Proof.
  apply anchor_again with (l := [Event SetValue (AudioParam.value p) time]).
  - reflexivity.
  - apply anchor_events.
  - times_ge.
Qed.

(** [resetEnvelopes] is idempotent: a second call at the same instant
    changes nothing. *)
Theorem resetEnvelopes_idempotent (v : GenSynthNote.t) (time : R) :
  resetEnvelopes (resetEnvelopes v time) time = resetEnvelopes v time.
Proof.
  assert (H : forall w,
            resetEnvelopes w time
            = set_cutoff (set_gain w (anchor (gain (adsr w)) time))
                (anchor (frequency (lpFilter w)) time)) by reflexivity.
  rewrite (H (resetEnvelopes v time)).
  rewrite reset_gain, reset_cutoff, !anchor_anchor.
  reflexivity.
Qed.

Lemma start_parts (w : GenSynthNote.t) (time : R) :
  start w time
  = set_cutoff
      (set_gain w
         (linearRampToValueAtTime
            (linearRampToValueAtTime (anchor (gain (adsr w)) time)
               (maxGain w) (time + attack w))
            (maxGain w * sustain w) (time + attack w + decay w)))
      (linearRampToValueAtTime (anchor (frequency (lpFilter w)) time)
         (freq w * 2) (time + attack w + decay w)).
Proof. reflexivity. Qed.

Lemma stop_parts (w : GenSynthNote.t) (time : R) :
  stop w time
  = osc_stop
      (set_cutoff
         (set_gain w
            (linearRampToValueAtTime (anchor (gain (adsr w)) time)
               0 (time + release w)))
         (anchor (frequency (lpFilter w)) time))
      (time + release w).
Proof. reflexivity. Qed.

Lemma start_freq (w : GenSynthNote.t) (time : R) :
  freq (start w time) = freq w.
Proof. reflexivity. Qed.

Lemma start_attack (w : GenSynthNote.t) (time : R) :
  attack (start w time) = attack w.
Proof. reflexivity. Qed.

Lemma start_decay (w : GenSynthNote.t) (time : R) :
  decay (start w time) = decay w.
Proof. reflexivity. Qed.

Lemma start_sustain (w : GenSynthNote.t) (time : R) :
  sustain (start w time) = sustain w.
Proof. reflexivity. Qed.

Lemma start_release (w : GenSynthNote.t) (time : R) :
  release (start w time) = release w.
Proof. reflexivity. Qed.

Lemma start_maxGain (w : GenSynthNote.t) (time : R) :
  maxGain (start w time) = maxGain w.
Proof. reflexivity. Qed.

Lemma set_twice (w : GenSynthNote.t) (G0 F0 G F : AudioParam.t) :
  set_cutoff (set_gain (set_cutoff (set_gain w G0) F0) G) F
  = set_cutoff (set_gain w G) F.
Proof. reflexivity. Qed.

Variable v : GenSynthNote.t.
Variable now : R.
Hypothesis attack_nonneg : 0 <= attack v.
Hypothesis decay_nonneg : 0 <= decay v.

Lemma anchor_after_start_gain :
  anchor (gain (adsr (start v now))) now = anchor (gain (adsr v)) now.
Proof.
  eapply anchor_again.
  - reflexivity.
  - apply start_gain_events; assumption.
  - times_ge.
Qed.

Lemma anchor_after_start_cutoff :
  anchor (frequency (lpFilter (start v now))) now
  = anchor (frequency (lpFilter v)) now.
Proof.
  eapply anchor_again.
  - reflexivity.
  - apply start_cutoff_events; assumption.
  - times_ge.
Qed.

(** With [attack, decay >= 0], a second [start()] at the same instant
    changes nothing: the two ramps of the first are cancelled and
    issued again. *)
Theorem start_twice_same_instant :
  start (start v now) now = start v now.
Proof.
  rewrite (start_parts (start v now)).
  rewrite anchor_after_start_gain, anchor_after_start_cutoff.
  rewrite ?start_freq, ?start_attack, ?start_decay, ?start_sustain,
    ?start_release, ?start_maxGain.
  rewrite (start_parts v). apply set_twice.
Qed.

(** With [attack, decay >= 0], [stop()] right after [start()] at the
    same instant leaves the voice as [stop()] alone would: nothing of
    the trigger remains on either timeline. *)
Theorem stop_undoes_start_same_instant :
  stop (start v now) now = stop v now.
Proof.
  rewrite (stop_parts (start v now)).
  rewrite anchor_after_start_gain, anchor_after_start_cutoff.
  rewrite ?start_freq, ?start_attack, ?start_decay, ?start_sustain,
    ?start_release, ?start_maxGain.
  rewrite (start_parts v), set_twice.
  symmetry. apply stop_parts.
Qed.

End SameInstant.

Section SameInstantWitness.

Import GenSynthNote.

Lemma start_twice_same_instant_witness :
  let v := render (start (new "delay" 60 0.01 0.1 0.25 0.9) 0) 0.05 in
  (0 <= attack v /\ 0 <= decay v)
  /\ start (start v 0.05) 0.05 = start v 0.05.
Proof.
  intros v.
  assert (Ha : 0 <= attack v) by (simpl; lra).
  assert (Hd : 0 <= decay v) by (simpl; lra).
  split; [split; assumption |].
  apply (start_twice_same_instant v 0.05 Ha Hd).
Defined.

Lemma stop_undoes_start_same_instant_witness :
  let v := render (start (new "delay" 60 0.01 0.1 0.25 0.9) 0) 0.05 in
  (0 <= attack v /\ 0 <= decay v)
  /\ stop (start v 0.05) 0.05 = stop v 0.05.
Proof.
  intros v.
  assert (Ha : 0 <= attack v) by (simpl; lra).
  assert (Hd : 0 <= decay v) by (simpl; lra).
  split; [split; assumption |].
  apply (stop_undoes_start_same_instant v 0.05 Ha Hd).
Defined.

End SameInstantWitness.

(** ** Retrigger and release on a sounding voice *)

Section Sounding.

Import GenSynthNote Invariant.

Lemma render_gain_value (v : GenSynthNote.t) (time : R) :
  AudioParam.value (gain (adsr (render v time))) = amplitudeAt v time.
Proof. reflexivity. Qed.

Lemma render_cutoff_value (v : GenSynthNote.t) (time : R) :
  AudioParam.value (frequency (lpFilter (render v time))) = cutoffAt v time.
Proof. reflexivity. Qed.

Lemma render_gain_events (v : GenSynthNote.t) (time : R) :
  events (gain (adsr (render v time))) = events (gain (adsr v)).
Proof. reflexivity. Qed.

Lemma render_release (v : GenSynthNote.t) (time : R) :
  release (render v time) = release v.
Proof. reflexivity. Qed.

Lemma rendersOnly_run (rs : list call) :
  rendersOnly rs = true ->
  forall v,
    events (gain (adsr (run v rs))) = events (gain (adsr v))
    /\ release (run v rs) = release v.
Proof.
  unfold run, rendersOnly.
  induction rs as [| c rs IH]; simpl; intros Hrs v; [split; reflexivity |].
  apply andb_true_iff in Hrs. destruct Hrs as [Hc Hrs].
  destruct c as [now | now | time | now]; try discriminate Hc.
  destruct (IH Hrs (perform v (Render now))) as [Hev Hrel].
  rewrite Hev, Hrel. split; reflexivity.
Qed.

(** Release during the attack.  A voice triggered at [t0] and released
    at [t], before the attack ramp has ended and after any rendering,
    loses the rest of the attack and the whole decay: from [t] on its
    gain timeline holds only the anchor, at the value the getter
    returns at the call, and the ramp to 0, so the amplitude falls on a
    straight line from that value to 0 at [t + release]. *)
Theorem release_during_attack
  (v : GenSynthNote.t) (t0 t : R) (rs : list call) :
  rendersOnly rs = true ->
  0 <= decay v -> 0 <= release v ->
  t0 < t < t0 + attack v ->
  let w := run (start v t0) rs in
  let held := AudioParam.value (gain (adsr w)) in
  events (gain (adsr (stop w t)))
  = past (gain (adsr v)) t0 ++
    [ Event SetValue (AudioParam.value (gain (adsr v))) t0;
      Event SetValue held t;
      Event LinearRamp 0 (t + release v) ]
  /\ (forall time, t <= time < t + release v ->
        amplitudeAt (stop w t) time = lerp t held (t + release v) 0 time)
  /\ (forall time, t + release v <= time -> amplitudeAt (stop w t) time = 0).
Proof.
  intros Hrs Hd Hr Ht. cbv zeta.
  assert (Ha : 0 <= attack v) by lra.
  destruct (rendersOnly_run rs Hrs (start v t0)) as [Hevw Hrelw].
  rewrite start_release in Hrelw.
  pose proof (start_gain_events v t0 Ha Hd) as Hev1.
  assert (Hpast : past (gain (adsr (run (start v t0) rs))) t
                  = past (gain (adsr v)) t0
                    ++ [Event SetValue (AudioParam.value (gain (adsr v))) t0]).
  { unfold past at 1. rewrite Hevw, Hev1, filter_app. f_equal.
    - apply filter_all.
      eapply Forall_impl; [| apply past_before]. simpl. intros e He.
      unfold before. destruct (Rlt_dec (ev_time e) t); [reflexivity | lra].
    - simpl. unfold before. simpl. rle_cases; try lra. reflexivity. }
  assert (Hr' : 0 <= release (run (start v t0) rs)) by (rewrite Hrelw; exact Hr).
  pose proof (stop_gain_events (run (start v t0) rs) t Hr') as Hev.
  rewrite Hrelw in Hev.
  assert (Hval : forall time, t <= time ->
            amplitudeAt (stop (run (start v t0) rs) t) time
            = valueFrom t (AudioParam.value (gain (adsr (run (start v t0) rs))))
                [ Event LinearRamp 0 (t + release v) ] time).
  { intros time Hle. unfold amplitudeAt.
    exact (valueAt_anchored _ _ _ _ _ time Hev (past_before _ _) Hle). }
  split.
  { rewrite Hev, Hpast, <- app_assoc. reflexivity. }
  split.
  - intros time Htime. rewrite Hval by lra.
    simpl. rle_cases; solve [lra | reflexivity].
  - intros time Htime. rewrite Hval by lra.
    simpl. rle_cases; solve [lra | reflexivity].
Qed.

Lemma release_during_attack_witness :
  let v := new "delay" 60 0.01 0.1 0.25 0.9 in
  let rs := [Render 0.002; Render 0.004] in
  (rendersOnly rs = true /\ 0 <= decay v /\ 0 <= release v
   /\ 0 < 0.005 < 0 + attack v)
  /\ amplitudeAt (stop (run (start v 0) rs) 0.005) (0.005 + release v) = 0.
Proof.
  intros v rs.
  assert (Hrs : rendersOnly rs = true) by reflexivity.
  assert (Hd : 0 <= decay v) by (simpl; lra).
  assert (Hr : 0 <= release v) by (simpl; lra).
  assert (Ht : 0 < 0.005 < 0 + attack v) by (simpl; lra).
  split; [repeat split; solve [assumption | apply Ht] |].
  pose proof (release_during_attack v 0 0.005 rs Hrs Hd Hr Ht) as H.
  cbv zeta in H. destruct H as (_ & _ & H).
  apply H. lra.
Defined.

(** After [stop()] at [now] nothing is scheduled on the cutoff: it
    keeps the value it was anchored at, at [now] and at every later
    instant; so do both parameters after [resetEnvelopes(now)]. *)
Theorem stop_freezes_cutoff (v : GenSynthNote.t) (now time : R) :
  now <= time ->
  cutoffAt (stop v now) time = AudioParam.value (frequency (lpFilter v))
  /\ cutoffAt (resetEnvelopes v now) time
     = AudioParam.value (frequency (lpFilter v))
  /\ amplitudeAt (resetEnvelopes v now) time
     = AudioParam.value (gain (adsr v)).
Proof.
  intros Ht.
  assert (H : forall p, valueAt (anchor p now) time = AudioParam.value p).
  { intros p.
    rewrite (valueAt_anchored _ _ _ _ _ time
               (anchor_events p now) (past_before _ _) Ht).
    reflexivity. }
  unfold cutoffAt, amplitudeAt.
  rewrite stop_cutoff, reset_cutoff, reset_gain, !H.
  repeat split.
Qed.

Lemma stop_freezes_cutoff_witness :
  let v := render (start (new "delay" 60 0.01 0.1 0.25 0.9) 0) 0.05 in
  0.05 <= 3
  /\ cutoffAt (stop v 0.05) 3 = AudioParam.value (frequency (lpFilter v)).
Proof.
  intros v. assert (Ht : 0.05 <= 3) by lra.
  split; [exact Ht |].
  pose proof (stop_freezes_cutoff v 0.05 3 Ht) as H.
  destruct H as (H & _). exact H.
Defined.

End Sounding.

(** ** Stop requests of one voice *)

Section StopRequests.

Import GenSynthNote Invariant.



End StopRequests.

(** ** A draw outside the pool *)

Section Undefined.

Import Looper.

Context {A : Type}.

(** [pick] gives [undefined] exactly when the pool is empty or the draw
    is outside [[0, 1)]: a negative draw gives a negative index, a draw
    of 1 or more an index past the end. *)
Theorem pick_undefined_iff (pool : list A) (r : R) :
  pick pool r = None <-> pool = [] \/ r < 0 \/ 1 <= r.
Proof.
  split.
  - intros Hnone.
    destruct pool as [| x pool']; [now left | right].
    destruct (Rlt_dec r 0) as [Hneg | Hnonneg]; [now left | right].
    destruct (Rle_dec 1 r) as [Hone | Hlt]; [exact Hone | exfalso].
    assert (Hpool : x :: pool' <> []) by discriminate.
    assert (Hr : 0 <= r < 1)
      by (split; [now apply Rnot_lt_le | now apply Rnot_le_lt]).
    destruct (pick_member (x :: pool') r Hpool Hr) as (p & Hp & _).
    congruence.
  - unfold pick, index, randomIndex.
    intros [-> | Hr].
    + simpl. rewrite Rmult_0_r.
      change 0 with (IZR 0). rewrite ZfloorZ. reflexivity.
    + destruct pool as [| x pool'].
      * simpl. rewrite Rmult_0_r.
        change 0 with (IZR 0). rewrite ZfloorZ. reflexivity.
      * set (n := List.length (x :: pool')).
        assert (Hn : 1 <= INR n).
        { change 1 with (INR 1). apply le_INR. unfold n. simpl. lia. }
        pose proof (Zfloor_bound (r * INR n)) as [Hlo Hhi].
        destruct Hr as [Hneg | Hone].
        -- assert (Hz : (Zfloor (r * INR n) < 0)%Z).
           { apply lt_IZR.
             assert (Hrn : r * INR n <= r * 1)
               by (apply Rmult_le_compat_neg_l; lra).
             lra. }
           apply Z.ltb_lt in Hz. now rewrite Hz.
        -- assert (Hz : (Z.of_nat n <= Zfloor (r * INR n))%Z).
           { apply Zfloor_lub. rewrite <- INR_IZR_INZ.
             assert (Hrn : 1 * INR n <= r * INR n)
               by (apply Rmult_le_compat_r; lra).
             lra. }
           destruct (Z.ltb_spec (Zfloor (r * INR n)) 0) as [_ | Hge];
             [reflexivity |].
           apply nth_error_None. fold n. lia.
Qed.

End Undefined.

(** ** Interval handles that no longer fire *)

Section DeadHandles.

Import Looper.

(** In every state the page can reach: with no loop running no interval
    callback plays a note; after a click on stop none does, whatever
    its handle; and after a click on start only the new handle does. *)
Theorem only_the_live_interval_plays (s : state) (h : nat) (r now : R) :
  reachable s ->
  (looper s = None -> intervalFires s h r now = s)
  /\ intervalFires (clickStop s) h r now = clickStop s
  /\ (h <> nextHandle s ->
      intervalFires (clickStart s) h r now = clickStart s).
Proof.
  intros Hs. pose proof (reachable_tidy s Hs) as Ht.
  split; [| split].
  - intros Hnone. destruct Ht as (Hi & _ & _).
    unfold intervalFires. rewrite Hi, Hnone. reflexivity.
  - unfold intervalFires.
    change (intervals (clickStop s))
      with (clearInterval (intervals s) (looper s)).
    rewrite (tidy_clear s Ht). reflexivity.
  - intros Hne. unfold intervalFires.
    rewrite (tidy_clickStart_intervals s Ht). simpl.
    apply Nat.eqb_neq in Hne. rewrite Hne. reflexivity.
Qed.

Lemma only_the_live_interval_plays_witness :
  let s := steps init [ClickStart; IntervalFires 1 0.5 0; ClickStart] in
  reachable s
  /\ intervalFires (clickStop s) 2 0.5 0.3 = clickStop s.
Proof.
  intros s.
  assert (Hs : reachable s) by (repeat apply reachable_step; apply reachable_init).
  split; [exact Hs |].
  pose proof (only_the_live_interval_plays s 2 0.5 0.3 Hs) as H.
  destruct H as (_ & H & _). exact H.
Defined.

End DeadHandles.

(** ** The envelope variables *)

Section Envelope.

Import Looper.

(** The four envelope variables of the page. *)
Lemma step_envelope (s : state) (e : event) :
  isSlider e = false ->
  (attack (step s e), decay (step s e), sustain (step s e), release (step s e))
  = (attack s, decay s, sustain s, release s).
Proof.
  destruct e as [| | h r now | h now | x | x | x | x | now];
    simpl; intros He; try discriminate He; try reflexivity.
  - unfold intervalFires.
    destruct (existsb (Nat.eqb h) (intervals s)); [| reflexivity].
    unfold playANote. destruct (pick midiNotes r); reflexivity.
  - unfold timeoutFires.
    destruct (findTimeout (timeouts s) h); reflexivity.
Qed.

(** Only the sliders change the envelope: over any events without
    slider input, clicks, interval and timeout callbacks and rendering
    included, the four variables keep their values, and the voice
    played next is built from them. *)
Theorem only_sliders_change_envelope (s : state) (es : list event) (r now : R) :
  forallb (fun e => negb (isSlider e)) es = true ->
  0 <= r < 1 ->
  (attack (steps s es), decay (steps s es),
   sustain (steps s es), release (steps s es))
  = (attack s, decay s, sustain s, release s)
  /\ exists p s',
       In p midiNotes
       /\ playANote (steps s es) r now = Some s'
       /\ notes s' = notes (steps s es) ++
            [GenSynthNote.start
               (GenSynthNote.new "delay" (IZR p)
                  (attack s) (decay s) (sustain s) (release s)) now].
Proof.
  intros Hes Hr.
  assert (Henv : (attack (steps s es), decay (steps s es),
                  sustain (steps s es), release (steps s es))
                 = (attack s, decay s, sustain s, release s)).
  { unfold steps. revert s.
    induction es as [| e es IH]; intros s; simpl; [reflexivity |].
    simpl in Hes. apply andb_true_iff in Hes. destruct Hes as [He Hes].
    rewrite (IH Hes). apply step_envelope. now apply negb_true_iff. }
  split; [exact Henv |].
  destruct (playANote_some (steps s es) r now Hr) as (p & Hin & Hplay).
  exists p. eexists. split; [exact Hin |]. split; [exact Hplay |].
  injection Henv as -> -> -> ->. reflexivity.
Qed.

Lemma only_sliders_change_envelope_witness :
  let es := [ClickStart; IntervalFires 1 0.5 0; Quantum 0.1;
             TimeoutFires 2 0.125; ClickStop] in
  (forallb (fun e => negb (isSlider e)) es = true /\ 0 <= 0.5 < 1)
  /\ (attack (steps (attTimeInput init 0.5) es),
      decay (steps (attTimeInput init 0.5) es),
      sustain (steps (attTimeInput init 0.5) es),
      release (steps (attTimeInput init 0.5) es))
     = (0.5, decay init, sustain init, release init).
Proof.
  intros es.
  assert (Hes : forallb (fun e => negb (isSlider e)) es = true) by reflexivity.
  assert (Hr : 0 <= 0.5 < 1) by lra.
  split; [split; assumption |].
  pose proof (only_sliders_change_envelope (attTimeInput init 0.5) es 0.5 0 Hes Hr) as H.
  destruct H as (H & _). exact H.
Defined.

End Envelope.

(** ** The feedback slider *)

Section FeedbackGain.

Import Feedback.

(** On a feedback gain whose events all end by [now + 0.01], the
    handler appends one ramp, to the slider value [x], ending at
    [now + 0.01]; from then on the gain is [x]; and the same holds
    again for any input at [now] or later. *)
Theorem fbInput_reaches_slider_value (p : AudioParam.t) (x now : R) :
  Forall (fun e => ev_time e <= now + 0.01) (events p) ->
  let p' := fbInput p x now in
  events p' = events p ++ [Event LinearRamp x (now + 0.01)]
  /\ AudioParam.value p' = AudioParam.value p
  /\ (forall time, now + 0.01 <= time -> valueAt p' time = x)
  /\ (forall later, now <= later ->
        Forall (fun e => ev_time e <= later + 0.01) (events p')).
Proof.
  intros Hp p'.
  assert (Hev : events p' = events p ++ [Event LinearRamp x (now + 0.01)]).
  { unfold p', fbInput, linearRampToValueAtTime. simpl.
    now apply insertEvent_last. }
  split; [exact Hev |]. split; [reflexivity |]. split.
  - intros time Ht.
    rewrite (valueAt_skip p' (events p) [] (Event LinearRamp x (now + 0.01)) time Hev).
    + reflexivity.
    + eapply Forall_impl; [| exact Hp]. simpl. intros e He. lra.
    + simpl. lra.
  - intros later Hl. rewrite Hev. apply Forall_app. split.
    + eapply Forall_impl; [| exact Hp]. simpl. intros e He. lra.
    + constructor; [simpl; lra | constructor].
Qed.

Lemma fbInput_reaches_slider_value_witness :
  let p := fbInput (AudioParam.make 0.5) 0.3 1 in
  Forall (fun e => ev_time e <= 1.005 + 0.01) (events p)
  /\ valueAt (fbInput p 0.8 1.005) 2 = 0.8.
Proof.
  intros p.
  assert (Hp : Forall (fun e => ev_time e <= 1.005 + 0.01) (events p)).
  { unfold p, fbInput, linearRampToValueAtTime. simpl.
    constructor; [simpl; lra | constructor]. }
  split; [exact Hp |].
  pose proof (fbInput_reaches_slider_value p 0.8 1.005 Hp) as H.
  cbv zeta in H. destruct H as (_ & _ & H & _).
  apply H. lra.
Defined.

End FeedbackGain.

(** ** One stop request for every voice of the page *)

Section OneStop.

Import Looper Invariant.





Lemma nth_error_update (ns : list GenSynthNote.t) (f : GenSynthNote.t -> GenSynthNote.t) :
  forall i j,
    nth_error (update ns i f) j
    = if Nat.eqb j i then option_map f (nth_error ns j) else nth_error ns j.
Proof.
  induction ns as [| n ns IH]; intros i j; simpl.
  - destruct (Nat.eqb j i); destruct j; reflexivity.
  - destruct i as [| i], j as [| j]; simpl; try reflexivity. apply IH.
Qed.















(** ** Voices stay, with their settings *)

Lemma step_keeps_voice (s : state) (e : event) (i : nat) (n : GenSynthNote.t) :
  nth_error (notes s) i = Some n ->
  exists n',
    nth_error (notes (step s e)) i = Some n'
    /\ GenSynthNote.settings n' = GenSynthNote.settings n.
Proof.
  intros Hn.
  destruct e as [| | h r now | h now | x | x | x | x | now]; simpl;
    try (exists n; split; [exact Hn | reflexivity]).
  - unfold intervalFires.
    destruct (existsb (Nat.eqb h) (intervals s));
      [| exists n; split; [exact Hn | reflexivity]].
    unfold playANote.
    destruct (pick midiNotes r); [| exists n; split; [exact Hn | reflexivity]].
    simpl. exists n. split; [| reflexivity].
    rewrite nth_error_app1; [exact Hn |].
    apply nth_error_Some. congruence.
  - unfold timeoutFires.
    destruct (findTimeout (timeouts s) h) as [j |];
      [| exists n; split; [exact Hn | reflexivity]].
    simpl. rewrite nth_error_update, Hn.
    destruct (Nat.eqb i j); simpl; eexists; split; reflexivity.
  - rewrite nth_error_map, Hn. simpl. eexists. split; reflexivity.
Qed.

(** Whatever happens on the page, a voice stays where it is in the
    page's voices and keeps the frequency, attack, decay, sustain,
    release and peak gain it was made with. *)
Theorem voices_keep_settings_through_all_events
  (s : state) (es : list event) (i : nat) (n : GenSynthNote.t) :
  nth_error (notes s) i = Some n ->
  exists n',
    nth_error (notes (steps s es)) i = Some n'
    /\ GenSynthNote.settings n' = GenSynthNote.settings n.
Proof.
  unfold steps. revert s n.
  induction es as [| e es IH]; intros s n Hn; simpl.
  - exists n. split; [exact Hn | reflexivity].
  - destruct (step_keeps_voice s e i n Hn) as (n1 & Hn1 & Hset1).
    destruct (IH (step s e) n1 Hn1) as (n' & Hn' & Hset').
    exists n'. split; [exact Hn' | congruence].
Qed.

Lemma voices_keep_settings_through_all_events_witness :
  let s := steps init [ClickStart; IntervalFires 1 0.5 0] in
  exists n n',
    nth_error (notes s) 0 = Some n
    /\ nth_error
         (notes (steps s [RelTimeInput 3; Quantum 0.1; TimeoutFires 2 0.125;
                          ClickStop]))
         0 = Some n'
    /\ GenSynthNote.settings n' = GenSynthNote.settings n.
Proof.
  intros s.
  destruct (playANote_some (clickStart init) 0.5 0 ltac:(lra)) as (p & _ & Hplay).
  assert (Hs : s = match playANote (clickStart init) 0.5 0 with
                   | Some s' => s'
                   | None => clickStart init
                   end) by reflexivity.
  rewrite Hplay in Hs.
  destruct (nth_error (notes s) 0) as [n |] eqn:Hn;
    [| rewrite Hs in Hn; discriminate Hn].
  exists n.
  destruct (voices_keep_settings_through_all_events s
              [RelTimeInput 3; Quantum 0.1; TimeoutFires 2 0.125; ClickStop]
              0 n Hn) as (n' & Hn' & Hset).
  exists n'. split; [reflexivity |]. split; [exact Hn' | exact Hset].
Defined.

End OneStop.

(** ** What the platform accepts *)

Section Accepted.

Import GenSynthNote.

Lemma checked_settings (v : Playback.voice) (c : call) :
  settings (Playback.note (Playback.after (Playback.perform v c)))
  = settings (Playback.note v).
Proof.
  destruct v as [n st].
  destruct c as [now | now | time | now]; cbn [Playback.perform].
  - unfold Playback.start, Playback.resetEnvelopes.
    destruct (Rlt_dec now 0); [reflexivity |]. cbv zeta. simpl.
    destruct (Rlt_dec (now + attack n) 0); [reflexivity |].
    destruct (Rlt_dec (now + attack n + decay n) 0); reflexivity.
  - unfold Playback.stop, Playback.resetEnvelopes.
    destruct (Rlt_dec now 0); [reflexivity |]. cbv zeta. simpl.
    destruct (Rlt_dec (now + release n) 0); [reflexivity |].
    destruct st; reflexivity.
  - unfold Playback.resetEnvelopes.
    destruct (Rlt_dec time 0); reflexivity.
  - reflexivity.
Qed.

Lemma checked_sourceStarted (v : Playback.voice) (c : call) :
  Playback.sourceStarted (Playback.after (Playback.perform v c))
  = Playback.sourceStarted v.
Proof.
  destruct v as [n st].
  destruct c as [now | now | time | now]; cbn [Playback.perform].
  - unfold Playback.start, Playback.resetEnvelopes.
    destruct (Rlt_dec now 0); [reflexivity |]. cbv zeta. simpl.
    destruct (Rlt_dec (now + attack n) 0); [reflexivity |].
    destruct (Rlt_dec (now + attack n + decay n) 0); reflexivity.
  - unfold Playback.stop, Playback.resetEnvelopes.
    destruct (Rlt_dec now 0); [reflexivity |]. cbv zeta. simpl.
    destruct (Rlt_dec (now + release n) 0); [reflexivity |].
    destruct st; reflexivity.
  - unfold Playback.resetEnvelopes.
    destruct (Rlt_dec time 0); reflexivity.
  - reflexivity.
Qed.

Lemma checked_osc_stops (v : Playback.voice) (c : call) :
  Playback.sourceStarted v = false ->
  osc_stops (osc (Playback.note (Playback.after (Playback.perform v c))))
  = osc_stops (osc (Playback.note v)).
Proof.
  destruct v as [n st]. simpl. intros ->.
  destruct c as [now | now | time | now]; cbn [Playback.perform].
  - unfold Playback.start, Playback.resetEnvelopes.
    destruct (Rlt_dec now 0); [reflexivity |]. cbv zeta. simpl.
    destruct (Rlt_dec (now + attack n) 0); [reflexivity |].
    destruct (Rlt_dec (now + attack n + decay n) 0); reflexivity.
  - unfold Playback.stop, Playback.resetEnvelopes.
    destruct (Rlt_dec now 0); [reflexivity |]. cbv zeta. simpl.
    destruct (Rlt_dec (now + release n) 0); reflexivity.
  - unfold Playback.resetEnvelopes.
    destruct (Rlt_dec time 0); reflexivity.
  - reflexivity.
Qed.

Lemma checked_run (cs : list call) :
  forall v,
    Playback.sourceStarted v = false ->
    Playback.sourceStarted (Playback.run v cs) = false
    /\ settings (Playback.note (Playback.run v cs)) = settings (Playback.note v)
    /\ osc_stops (osc (Playback.note (Playback.run v cs)))
       = osc_stops (osc (Playback.note v)).
Proof.
  unfold Playback.run.
  induction cs as [| c cs IH]; intros v Hv; simpl.
  - repeat split. exact Hv.
  - assert (Hv' : Playback.sourceStarted (Playback.after (Playback.perform v c))
                  = false) by (rewrite checked_sourceStarted; exact Hv).
    destruct (IH _ Hv') as (H1 & H2 & H3).
    rewrite H2, H3, checked_settings, checked_osc_stops by exact Hv.
    repeat split. exact H1.
Qed.

Lemma stop_unstarted (v : Playback.voice) (now : R) :
  Playback.sourceStarted v = false ->
  0 <= now -> 0 <= now + release (Playback.note v) ->
  Playback.stop v now
  = Playback.Raised Playback.InvalidStateError
      (Playback.withNote v
         (set_gain (resetEnvelopes (Playback.note v) now)
            (linearRampToValueAtTime
               (anchor (gain (adsr (Playback.note v))) now)
               0 (now + release (Playback.note v))))).
Proof.
  destruct v as [n st]. simpl. intros -> Hnow Hend.
  unfold Playback.stop, Playback.resetEnvelopes.
  destruct (Rlt_dec now 0); [lra |]. cbv zeta. simpl.
  destruct (Rlt_dec (now + release n) 0); [lra | reflexivity].
Qed.

Lemma stop_started (v : Playback.voice) (now : R) :
  Playback.sourceStarted v = true ->
  0 <= now -> 0 <= now + release (Playback.note v) ->
  Playback.stop v now
  = Playback.Returned (Playback.withNote v (stop (Playback.note v) now)).
Proof.
  destruct v as [n st]. simpl. intros -> Hnow Hend.
  unfold Playback.stop, Playback.resetEnvelopes.
  destruct (Rlt_dec now 0); [lra |]. cbv zeta. simpl.
  destruct (Rlt_dec (now + release n) 0); [lra | reflexivity].
Qed.

(** C2, as the code runs.  No method of the class starts the
    oscillator, so on every voice the constructor has made, whatever
    has been called on it since, [stop()] at [now >= 0] with
    [release >= 0] anchors the gain, schedules its ramp to 0 ending at
    [now + release] and then raises [InvalidStateError] at
    [this.osc.stop]: the oscillator has received no stop request, and
    receives none whatever is called later.  Had the oscillator been
    started, the same call would return with the stop requested for
    [now + release]. *)
Theorem stop_raises_at_the_generator_stop
  (dest : string) (midiNote a d s r : R) (cs : list call) (now : R) :
  0 <= now -> 0 <= r ->
  let v := Playback.run (Playback.new dest midiNote a d s r) cs in
  let left := Playback.after (Playback.stop v now) in
  Playback.stop v now = Playback.Raised Playback.InvalidStateError left
  /\ gain (adsr (Playback.note left))
     = linearRampToValueAtTime (anchor (gain (adsr (Playback.note v))) now)
         0 (now + r)
  /\ osc_stops (osc (Playback.note left)) = []
  /\ (forall cs', osc_stops (osc (Playback.note (Playback.run left cs'))) = [])
  /\ (forall w,
        Playback.sourceStarted w = true ->
        0 <= release (Playback.note w) ->
        Playback.stop w now
        = Playback.Returned (Playback.withNote w (stop (Playback.note w) now))
        /\ osc_stops (osc (stop (Playback.note w) now))
           = (now + release (Playback.note w))
             :: osc_stops (osc (Playback.note w))).
Proof.
  intros Hnow Hr. cbv zeta.
  destruct (checked_run cs (Playback.new dest midiNote a d s r) eq_refl)
    as (Hstarted & Hset & Hosc).
  assert (Hrel : release (Playback.note
                            (Playback.run (Playback.new dest midiNote a d s r) cs))
                 = r).
  { unfold settings in Hset. now injection Hset. }
  assert (Hend : 0 <= now + release
                   (Playback.note
                      (Playback.run (Playback.new dest midiNote a d s r) cs)))
    by (rewrite Hrel; lra).
  rewrite (stop_unstarted _ now Hstarted Hnow Hend).
  cbn [Playback.after].
  split; [reflexivity |].
  split; [cbn [Playback.withNote Playback.note]; rewrite Hrel; reflexivity |].
  split; [exact Hosc |].
  split.
  - intros cs'.
    destruct (checked_run cs'
                (Playback.withNote
                   (Playback.run (Playback.new dest midiNote a d s r) cs)
                   (set_gain
                      (resetEnvelopes
                         (Playback.note
                            (Playback.run (Playback.new dest midiNote a d s r) cs))
                         now)
                      (linearRampToValueAtTime
                         (anchor
                            (gain (adsr
                               (Playback.note
                                  (Playback.run
                                     (Playback.new dest midiNote a d s r) cs))))
                            now)
                         0
                         (now + release
                            (Playback.note
                               (Playback.run
                                  (Playback.new dest midiNote a d s r) cs))))))
                Hstarted) as (_ & _ & Hosc').
    rewrite Hosc'. exact Hosc.
  - intros w Hw Hrw. split; [| reflexivity].
    apply stop_started; [exact Hw | exact Hnow | lra].
Qed.

Lemma stop_raises_at_the_generator_stop_witness :
  (0 <= 0.125 /\ 0 <= 0.9)
  /\ exists left,
       Playback.stop
         (Playback.run (Playback.new "delay" 60 0.01 0.1 0.25 0.9)
            [Start 0; Render 0.125]) 0.125
       = Playback.Raised Playback.InvalidStateError left
       /\ osc_stops (osc (Playback.note left)) = [].
Proof.
  assert (Hnow : 0 <= 0.125) by lra.
  assert (Hr : 0 <= 0.9) by lra.
  split; [split; assumption |].
  pose proof (stop_raises_at_the_generator_stop "delay" 60 0.01 0.1 0.25 0.9
                [Start 0; Render 0.125] 0.125 Hnow Hr) as H.
  cbv zeta in H. destruct H as (H1 & _ & H2 & _).
  eexists. split; [exact H1 | exact H2].
Defined.


End Accepted.
